(** * Session management core of the asynchronous greeting server

    A shallow embedding of [src/common/type.cc] and
    [src/server/GreetingServer.cc], and the properties of the event-tag
    codec, the registry, the dispatch loops, the broadcaster and the
    shutdown protocol that hold of them.

    A method of the server is a function from the members of the server to
    a result, the members afterwards and the trace of what the method did to
    the outside (lock operations, calls on sessions and on the transport).
    The threads of [GreetingServer::run] are put together in a step function
    on the server and the local variables of the two dispatch loops. *)

From stdpp Require Import base numbers option list sorting gmap strings.

Local Open Scope Z_scope.

(** ** Machine integers *)

(** [uint64_t]: session identifiers and tags. *)
Definition UINT64_MODULUS : Z := 2 ^ 64.

Definition wrap64 (z : Z) : Z := z mod UINT64_MODULUS.

Definition uint64 (z : Z) : Prop := 0 ≤ z < UINT64_MODULUS.

(** ** [common/type.h] and [common/type.cc] *)

(** The four declared enumerators of [GrpcEvent]. *)
Inductive GrpcEventKind :=
  | CONNECTED_KIND
  | READ_DONE_KIND
  | WRITE_DONE_KIND
  | FINISHED_KIND.

(** A value of the C++ enumeration type is an integer: the loops obtain one
    with [static_cast<GrpcEvent>(session_id & GRPC_EVENT_MASK)], which does
    not check that the integer is an enumerator. *)
Definition GrpcEvent := Z.

(** Modelled from the spec: [type.h] is not among the sources.  The spec
    lists the four kinds in this order and reserves for them the low bits of
    a tag, "width = number of bits needed to represent the event-kind
    enumeration"; the enumerators are numbered in declaration order. *)
Definition GRPC_EVENT_CONNECTED : GrpcEvent := 0.
Definition GRPC_EVENT_READ_DONE : GrpcEvent := 1.
Definition GRPC_EVENT_WRITE_DONE : GrpcEvent := 2.
Definition GRPC_EVENT_FINISHED : GrpcEvent := 3.

(** Modelled from the spec: the two macros of [type.h], two bits for four
    kinds and the mask that selects them. *)
Definition GRPC_EVENT_BIT_LENGTH : Z := 2.
Definition GRPC_EVENT_MASK : Z := 3.

Definition enumerator (k : GrpcEventKind) : GrpcEvent :=
  match k with
  | CONNECTED_KIND => GRPC_EVENT_CONNECTED
  | READ_DONE_KIND => GRPC_EVENT_READ_DONE
  | WRITE_DONE_KIND => GRPC_EVENT_WRITE_DONE
  | FINISHED_KIND => GRPC_EVENT_FINISHED
  end.

Definition event_name (k : GrpcEventKind) : string :=
  match k with
  | CONNECTED_KIND => "GRPC_EVENT_CONNECTED"
  | READ_DONE_KIND => "GRPC_EVENT_READ_DONE"
  | WRITE_DONE_KIND => "GRPC_EVENT_WRITE_DONE"
  | FINISHED_KIND => "GRPC_EVENT_FINISHED"
  end.

(** A [std::ostream] is the text written to it so far. *)
Definition ostream := string.

(** [operator<<(std::ostream&, GrpcEvent)].  The switch has a case for each
    enumerator and no default: on any other value control reaches the end of
    the function, which returns nothing ([None]). *)
Definition print_event (os : ostream) (event : GrpcEvent) : option ostream :=
  if decide (event = GRPC_EVENT_CONNECTED) then Some (os +:+ "GRPC_EVENT_CONNECTED")
  else if decide (event = GRPC_EVENT_READ_DONE) then Some (os +:+ "GRPC_EVENT_READ_DONE")
  else if decide (event = GRPC_EVENT_WRITE_DONE) then Some (os +:+ "GRPC_EVENT_WRITE_DONE")
  else if decide (event = GRPC_EVENT_FINISHED) then Some (os +:+ "GRPC_EVENT_FINISHED")
  else None.

(** ** The event tag *)

(** What both loops of [GreetingServer::run] do with the [uint64_t] that
    [Next] hands them: the kind is [session_id & GRPC_EVENT_MASK], the
    identifier [session_id >> GRPC_EVENT_BIT_LENGTH]. *)
Definition decode (tag : Z) : Z * GrpcEvent :=
  (Z.shiftr tag GRPC_EVENT_BIT_LENGTH, Z.land tag GRPC_EVENT_MASK).

(** Modelled from the spec: the tags are made in [GreetingSession], which is
    not among the sources.  "Packing the event kind into the low bits ... and
    the session identifier into the remaining high bits" of a fixed-width
    unsigned integer: a left shift and a bitwise or on [uint64_t]. *)
Definition encode (session_id : Z) (event : GrpcEvent) : Z :=
  wrap64 (Z.lor (Z.shiftl session_id GRPC_EVENT_BIT_LENGTH) event).

(** The identifiers and the kinds that fit in the bits a tag reserves for
    them. *)
Definition fits_tag (session_id : Z) : Prop :=
  0 ≤ session_id < 2 ^ (64 - GRPC_EVENT_BIT_LENGTH).

Definition fits_kind (event : GrpcEvent) : Prop :=
  0 ≤ event ≤ GRPC_EVENT_MASK.

(** ** [server/GreetingSession.h], as far as the server uses it *)

(** Modelled from the spec: the enumeration is declared with the session,
    which is not among the sources; [stop] names [WAIT_CONNECT] and the spec
    gives the "minimal required set" of three. *)
Inductive GrpcSessionStatus :=
  | WAIT_CONNECT
  | CONNECTED
  | CLOSED.

#[global] Instance GrpcSessionStatus_eq_dec : EqDecision GrpcSessionStatus.
Proof. solve_decision. Defined.

Record GreetingSession := {
  session_id_ : Z;
  status_ : GrpcSessionStatus;
}.

(** Modelled from the spec: [GreetingSession]'s constructor.  A session is
    created "in [WAIT_CONNECT] armed for the next accept". *)
Definition make_session (session_id : Z) : GreetingSession :=
  {| session_id_ := session_id; status_ := WAIT_CONNECT |}.

(** ** What a thread of the server does to the outside *)

Inductive mutex :=
  | mutex_sessions_
  | session_mutex (session_id : Z).

(** The writes of [running_], the lock operations and the calls on the
    sessions and on the transport, in program order.  A session is named by
    the identifier it is registered under. *)
Inductive action :=
  | SetRunning (b : bool)
  | Lock (m : mutex)
  | Unlock (m : mutex)
  | Process (session_id : Z) (event : GrpcEvent)
  | Reply (session_id : Z)
  | TryCancel (session_id : Z)
  | ServerShutdown
  | CallQueueShutdown
  | NotificationQueueShutdown.

#[global] Instance mutex_eq_dec : EqDecision mutex.
Proof. solve_decision. Defined.

#[global] Instance action_eq_dec : EqDecision action.
Proof. solve_decision. Defined.

Definition occurrences (a : action) (trace : list action) : nat :=
  length (filter (λ b, b = a) trace).

Definition is_process_on (session_id : Z) (a : action) : bool :=
  match a with
  | Process i _ => bool_decide (i = session_id)
  | _ => false
  end.

Definition processes_on (session_id : Z) (trace : list action) : nat :=
  length (filter (λ a, is_process_on session_id a = true) trace).

(** ** [server/GreetingServer.h]: the members [GreetingServer.cc] uses *)

(** Modelled from the spec: [GreetingServer.h] is not among the sources.  The
    members are the ones [GreetingServer.cc] names.  The session identifier
    is "a monotonically increasing unsigned integer" packed into "a
    fixed-width unsigned integer", and [GreetingServer.cc] declares every
    identifier it handles [uint64_t]: the allocator is a [uint64_t], and the
    registry a map from [uint64_t] to (shared pointers to) sessions. *)
Record GreetingServer := {
  running_ : bool;
  session_id_allocator_ : Z;
  sessions_ : gmap Z GreetingSession;
}.

(** A method of the server: it reads and writes the members and leaves a
    trace of actions. *)
Definition M (A : Type) : Type := GreetingServer → A * GreetingServer * list action.

#[global] Instance M_ret : MRet M := λ A a s, (a, s, []).

#[global] Instance M_bind : MBind M := λ A B f m s,
  let '(a, s1, t1) := m s in
  let '(b, s2, t2) := f a s1 in
  (b, s2, t1 ++ t2).

Definition read {A} (member : GreetingServer → A) : M A :=
  λ s, (member s, s, []).

Definition call (a : action) : M unit :=
  λ s, (tt, s, [a]).

Definition write_running (b : bool) : M unit :=
  λ s, (tt, {| running_ := b;
               session_id_allocator_ := session_id_allocator_ s;
               sessions_ := sessions_ s |}, [SetRunning b]).

(** [session_id_allocator_++] on a [uint64_t]. *)
Definition post_increment_allocator : M Z :=
  λ s, (session_id_allocator_ s,
        {| running_ := running_ s;
           session_id_allocator_ := wrap64 (session_id_allocator_ s + 1);
           sessions_ := sessions_ s |}, []).

Definition update_sessions (f : gmap Z GreetingSession → gmap Z GreetingSession) : M unit :=
  λ s, (tt, {| running_ := running_ s;
               session_id_allocator_ := session_id_allocator_ s;
               sessions_ := f (sessions_ s) |}, []).

(** [std::lock_guard]: the mutex is held to the end of the block. *)
Definition lock_guard {A} (m : mutex) (block : M A) : M A :=
  call (Lock m);; a ← block; call (Unlock m);; mret a.

(** A range-based [for]. *)
Fixpoint for_each {A} (l : list A) (body : A → M unit) : M unit :=
  match l with
  | [] => mret tt
  | x :: rest => body x;; for_each rest body
  end.

Definition state_after {A} (r : A * GreetingServer * list action) : GreetingServer := r.1.2.
Definition trace_of {A} (r : A * GreetingServer * list action) : list action := r.2.
Definition value_of {A} (r : A * GreetingServer * list action) : A := r.1.1.

(** ** [GreetingServer.cc] *)

(** [GreetingServer::addSession].  Whether [new_session->init()] succeeds is
    decided in [GreetingSession]; it is the argument [init_ok]. *)
Definition addSession (init_ok : bool) : M (option GreetingSession) :=
  new_session_id ← post_increment_allocator;
  let new_session := make_session new_session_id in
  if negb init_ok then mret None
  else
    lock_guard mutex_sessions_
      (update_sessions (insert new_session_id new_session);;
       mret (Some new_session)).

(** [GreetingServer::removeSession]: [std::map::erase] by key. *)
Definition removeSession (sessionId : Z) : M unit :=
  lock_guard mutex_sessions_ (update_sessions (delete sessionId)).

(** [GreetingServer::getSession]; [None] is [nullptr]. *)
Definition getSession (sessionId : Z) : M (option GreetingSession) :=
  lock_guard mutex_sessions_
    (sessions ← read sessions_; mret (sessions !! sessionId)).

(** The sweep of [GreetingServer::stop], lines 113-124.  The status is read
    and the session cancelled under the mutex of the session.  [map_to_list]
    visits the entries in an order of its own; no property below depends on
    the order of a sweep. *)
Definition cancel_one (it : Z * GreetingSession) : M unit :=
  lock_guard (session_mutex it.1)
    (if decide (status_ it.2 ≠ WAIT_CONNECT) then call (TryCancel it.1)
     else mret tt).

Definition cancel_sweep : M unit :=
  lock_guard mutex_sessions_
    (sessions ← read sessions_; for_each (map_to_list sessions) cancel_one).

(** [GreetingServer::stop]. *)
Definition stop : M unit :=
  running ← read running_;
  if negb running then mret tt
  else
    write_running false;;
    cancel_sweep;;
    call ServerShutdown;;
    call CallQueueShutdown;;
    call NotificationQueueShutdown.

(** *** The two completion-queue loops of [GreetingServer::run]

    Both loops have the same body (lines 35-56 and 65-87).  Between the
    lookup and the end of the iteration the loop holds neither mutex, and the
    other threads run; what it keeps is in its local variables. *)
Inductive iteration :=
  | AtNext
  | Looked (session_id : Z) (event : GrpcEvent) (ok : bool) (session : GreetingSession).

(** From the return of [Next] to the test of [session == nullptr]. *)
Definition lookup_event (tag : Z) (ok : bool) : M iteration :=
  let '(session_id, event) := decode tag in
  if decide (event = GRPC_EVENT_FINISHED) then
    removeSession session_id;; mret AtNext
  else
    session ← getSession session_id;
    match session with
    | None => mret AtNext
    | Some session => mret (Looked session_id event ok session)
    end.

(** From the test of [ok] to the end of the iteration. *)
Definition finish_event (it : iteration) : M unit :=
  match it with
  | AtNext => mret tt
  | Looked session_id event ok session =>
      if negb ok then removeSession session_id
      else lock_guard (session_mutex session_id) (call (Process session_id event))
  end.

(** One iteration, run without the other threads in between. *)
Definition loop_body (tag : Z) (ok : bool) : M unit :=
  it ← lookup_event tag ok; finish_event it.

(** Modelled from the spec: [GreetingSession::process] is not among the
    sources.  By the spec (4.2) a session that gets its [CONNECTED] event
    "arms the next accept slot (see Server)", which is a call of
    [addSession], made inside [process] and so under the mutex of the
    session.  [finish_event] and [loop_body] record the call of [process]
    and stop there; what the call does to the server comes with the event,
    as the calls that it makes on the methods of the registry. *)
Inductive server_call :=
  | CallAddSession (init_ok : bool)
  | CallRemoveSession (sessionId : Z).

Definition session_calls (inside : list server_call) : M unit :=
  for_each inside
    (λ c, match c with
          | CallAddSession init_ok => addSession init_ok;; mret tt
          | CallRemoveSession sessionId => removeSession sessionId
          end).

(** From the test of [ok] to the end of the iteration, with what [process]
    does inside it. *)
Definition finish_event_with (inside : list server_call) (it : iteration) : M unit :=
  match it with
  | AtNext => mret tt
  | Looked session_id event ok session =>
      if negb ok then removeSession session_id
      else lock_guard (session_mutex session_id)
             (call (Process session_id event);; session_calls inside)
  end.

Definition loop_body_with (inside : list server_call) (tag : Z) (ok : bool) : M unit :=
  it ← lookup_event tag ok; finish_event_with inside it.

(** The loop runs until [Next] returns false: here, to the end of the events
    the queue delivers, each with what the session does on it.  The call
    thread registers the first session before it enters its loop. *)
Definition completion_queue_loop (events : list (Z * bool * list server_call)) : M unit :=
  for_each events (λ e, loop_body_with e.2 e.1.1 e.1.2).

Definition thread_completion_queue_call (init_ok : bool)
    (events : list (Z * bool * list server_call)) : M unit :=
  addSession init_ok;; completion_queue_loop events.

Definition thread_completion_queue_notification
    (events : list (Z * bool * list server_call)) : M unit :=
  completion_queue_loop events.

(** The routing as the specification words it (4.4): "if [ok] is false or
    the decoded kind is [FINISHED], remove the session from the Registry and
    stop.  Otherwise look up the session; if absent ... ignore the event.
    Otherwise lock the session and call [process(event)]". *)
Definition routing_spec (tag : Z) (ok : bool) : M unit :=
  let '(session_id, event) := decode tag in
  if decide (ok = false ∨ event = GRPC_EVENT_FINISHED) then
    update_sessions (delete session_id)
  else
    sessions ← read sessions_;
    match sessions !! session_id with
    | None => mret tt
    | Some session => call (Process session_id event)
    end.

(** The calls on sessions in a trace, without the lock operations. *)
Definition is_lock_op (a : action) : bool :=
  match a with
  | Lock _ | Unlock _ => true
  | _ => false
  end.

Definition calls (trace : list action) : list action :=
  filter (λ a, is_lock_op a = false) trace.

(** *** The broadcaster, [thread_publish_greeting] *)

Definition reply_one (it : Z * GreetingSession) : M unit :=
  lock_guard (session_mutex it.1) (call (Reply it.1)).

Definition publish_sweep : M unit :=
  lock_guard mutex_sessions_
    (sessions ← read sessions_; for_each (map_to_list sessions) reply_one).

(** [std::this_thread::sleep_for]: while the thread sleeps the other threads
    run; [others] is what they do to the server in the meantime. *)
Definition sleep_for (others : GreetingServer → GreetingServer) : M unit :=
  λ s, (tt, others s, []).

(** One turn of [while (running_)]: the condition, the sleep, the sweep.  The
    result tells whether the loop goes on. *)
Definition publish_iteration (others : GreetingServer → GreetingServer) : M bool :=
  running ← read running_;
  if negb running then mret false
  else (sleep_for others;; publish_sweep;; mret true).

(** The loop, with one entry of [sleeps] for each turn it is given the time
    to make. *)
Fixpoint thread_publish_greeting (sleeps : list (GreetingServer → GreetingServer)) : M unit :=
  match sleeps with
  | [] => mret tt
  | others :: sleeps =>
      again ← publish_iteration others;
      if negb again then mret tt else thread_publish_greeting sleeps
  end.

(** A turn of the broadcaster sweeps only while the flag is set: if it makes
    a [reply] call, [running_] is set when the sweep is made, that is, after
    the sleep. *)
Definition sweeps_while_running (others : GreetingServer → GreetingServer)
    (s : GreetingServer) : Prop :=
  ∀ session_id,
    (0 < occurrences (Reply session_id) (trace_of (publish_iteration others s)))%nat →
    running_ (others s) = true.

(** ** The threads together

    The registry is only touched under [mutex_sessions_], so the threads
    interleave at the granularity of the steps below. *)
Inductive queue := CALL | NOTIFICATION.

(** [addSession] after its first line: the initialisation of the session
    that got [new_session_id], and its registration under the lock. *)
Definition addSession_rest (new_session_id : Z) (init_ok : bool) : M (option GreetingSession) :=
  let new_session := make_session new_session_id in
  if negb init_ok then mret None
  else
    lock_guard mutex_sessions_
      (update_sessions (insert new_session_id new_session);;
       mret (Some new_session)).

(** Takes one occurrence of [x] out of [l]. *)
Fixpoint take_out (x : Z) (l : list Z) : option (list Z) :=
  match l with
  | [] => None
  | y :: l => if decide (x = y) then Some l else (y ::.) <$> take_out x l
  end.

(** The server, the local variables of the two dispatch loops, and the
    identifiers of the calls of [addSession] that have taken their
    identifier (line 136) and not yet come to the registration (lines
    138-145). *)
Record system := {
  server : GreetingServer;
  call_loop : iteration;
  notification_loop : iteration;
  pending : list Z;
}.

Definition loop_of (q : queue) (sys : system) : iteration :=
  match q with
  | CALL => call_loop sys
  | NOTIFICATION => notification_loop sys
  end.

Definition set_loop (q : queue) (it : iteration) (s : GreetingServer) (sys : system) : system :=
  match q with
  | CALL => {| server := s; call_loop := it; notification_loop := notification_loop sys;
               pending := pending sys |}
  | NOTIFICATION => {| server := s; call_loop := call_loop sys; notification_loop := it;
                       pending := pending sys |}
  end.

Definition set_server (s : GreetingServer) (sys : system) : system :=
  {| server := s; call_loop := call_loop sys; notification_loop := notification_loop sys;
     pending := pending sys |}.

Definition set_pending (l : list Z) (s : GreetingServer) (sys : system) : system :=
  {| server := s; call_loop := call_loop sys; notification_loop := notification_loop sys;
     pending := l |}.

(** The steps of the threads:
    - [Next q tag ok]: loop [q] returns from [Next] with an event and runs to
      its lookup;
    - [Finish q]: loop [q] runs from its lookup to the end of the iteration;
    - [AddSession init_ok]: [addSession] is called, by the call thread at its
      start or from a session, and runs to its end with no other thread in
      between;
    - [TakeIdentifier]: a call of [addSession] takes its identifier from the
      allocator (line 136), and the other threads run before it goes on;
    - [FinishAddSession new_session_id init_ok]: the call of [addSession] that took
      [new_session_id] goes on to its end (lines 137-145);
    - [RemoveSession sessionId]: [removeSession] is called from a session;
    - [Sweep]: the broadcaster, which tested [running_] before its sleep,
      wakes up and sweeps;
    - [Stop]: [stop] is called.

    [GreetingSession] is not among the sources.  By the spec a session that
    connects "arms the next accept slot", which is a call of [addSession];
    whatever else a session does to the registry it does through the methods
    of the server, under the registry lock. *)
Inductive step :=
  | Next (q : queue) (tag : Z) (ok : bool)
  | Finish (q : queue)
  | AddSession (init_ok : bool)
  | TakeIdentifier
  | FinishAddSession (new_session_id : Z) (init_ok : bool)
  | RemoveSession (sessionId : Z)
  | Sweep
  | Stop.

(** A step that its thread cannot take leaves the system as it is. *)
Definition exec_step (st : step) (sys : system) : system * list action :=
  match st with
  | Next q tag ok =>
      match loop_of q sys with
      | AtNext =>
          let '(it, s, trace) := lookup_event tag ok (server sys) in
          (set_loop q it s sys, trace)
      | Looked _ _ _ _ => (sys, [])
      end
  | Finish q =>
      let '(_, s, trace) := finish_event (loop_of q sys) (server sys) in
      (set_loop q AtNext s sys, trace)
  | AddSession init_ok =>
      let '(_, s, trace) := addSession init_ok (server sys) in
      (set_server s sys, trace)
  | TakeIdentifier =>
      let '(new_session_id, s, trace) := post_increment_allocator (server sys) in
      (set_pending (new_session_id :: pending sys) s sys, trace)
  | FinishAddSession new_session_id init_ok =>
      match take_out new_session_id (pending sys) with
      | Some others =>
          let '(_, s, trace) := addSession_rest new_session_id init_ok (server sys) in
          (set_pending others s sys, trace)
      | None => (sys, [])
      end
  | RemoveSession sessionId =>
      let '(_, s, trace) := removeSession sessionId (server sys) in
      (set_server s sys, trace)
  | Sweep =>
      let '(_, s, trace) := publish_sweep (server sys) in
      (set_server s sys, trace)
  | Stop =>
      let '(_, s, trace) := stop (server sys) in
      (set_server s sys, trace)
  end.

Fixpoint exec (schedule : list step) (sys : system) : system * list action :=
  match schedule with
  | [] => (sys, [])
  | st :: rest =>
      let '(sys1, t1) := exec_step st sys in
      let '(sys2, t2) := exec rest sys1 in
      (sys2, t1 ++ t2)
  end.

(** An iteration that is past its lookup of [session_id] with [ok] set: it
    will call [process] on that session. *)
Definition holds (session_id : Z) (it : iteration) : bool :=
  match it with
  | AtNext => false
  | Looked i _ ok _ => bool_decide (i = session_id) && ok
  end.

Definition in_flight (session_id : Z) (sys : system) : nat :=
  ((if holds session_id (call_loop sys) then 1 else 0)
   + (if holds session_id (notification_loop sys) then 1 else 0))%nat.

(** The step ends an iteration that had a [FINISHED] event or a completion
    that was not ok for [session_id]. *)
Definition dispatches_removal (st : step) (sys : system) (session_id : Z) : bool :=
  match st with
  | Next q tag ok =>
      match loop_of q sys with
      | AtNext =>
          bool_decide ((decode tag).1 = session_id)
          && (bool_decide ((decode tag).2 = GRPC_EVENT_FINISHED)
              || (negb ok
                  && match sessions_ (server sys) !! session_id with
                     | None => true
                     | Some _ => false
                     end))
      | Looked _ _ _ _ => false
      end
  | Finish q =>
      match loop_of q sys with
      | AtNext => false
      | Looked i _ ok _ => bool_decide (i = session_id) && negb ok
      end
  | AddSession _ | TakeIdentifier | FinishAddSession _ _ | RemoveSession _ | Sweep | Stop => false
  end.

(** How many times a schedule calls [addSession]: how many identifiers it
    takes from the allocator. *)
Fixpoint additions (schedule : list step) : Z :=
  match schedule with
  | [] => 0
  | AddSession _ :: rest => 1 + additions rest
  | TakeIdentifier :: rest => 1 + additions rest
  | _ :: rest => additions rest
  end.

(** The session is gone for good: after the schedule a lookup finds nothing
    and no [process] was called on it. *)
Definition gone_for_good (session_id : Z) (sys : system) (schedule : list step) : Prop :=
  value_of (getSession session_id (server (exec schedule sys).1)) = None
  ∧ processes_on session_id (exec schedule sys).2 = 0%nat.

(** Successive calls of [addSession]; the result lists the identifier each
    call took from the allocator. *)
Fixpoint add_sessions (inits : list bool) : M (list Z) :=
  match inits with
  | [] => mret []
  | init_ok :: rest =>
      new_session_id ← read session_id_allocator_;
      addSession init_ok;;
      ids ← add_sessions rest;
      mret (new_session_id :: ids)
  end.

(** The same calls; the result lists what each call returned. *)
Fixpoint addSession_results (inits : list bool) : M (list (option GreetingSession)) :=
  match inits with
  | [] => mret []
  | init_ok :: rest =>
      result ← addSession init_ok;
      results ← addSession_results rest;
      mret (result :: results)
  end.

(** What a call has done with the identifier it took, seen at the end of
    the run: the session it returned carries the identifier and is the one
    registered under it; a call that returned null has left the registry as
    it was under the identifier. *)
Definition assigned (before after : GreetingServer) (new_session_id : Z)
    (result : option GreetingSession) : Prop :=
  match result with
  | Some session =>
      session_id_ session = new_session_id
      ∧ sessions_ after !! new_session_id = Some session
  | None => sessions_ after !! new_session_id = sessions_ before !! new_session_id
  end.

(** In a run of calls of [addSession], each call takes an identifier greater
    than every identifier taken before it, no identifier is taken twice, and
    each session is given the identifier its call took and is registered
    under it, so that no two sessions have the same identifier. *)
Definition identifiers_increase (s : GreetingServer) (inits : list bool) : Prop :=
  StronglySorted Z.lt (value_of (add_sessions inits s))
  ∧ NoDup (value_of (add_sessions inits s))
  ∧ Forall2 (assigned s (state_after (addSession_results inits s)))
      (value_of (add_sessions inits s))
      (value_of (addSession_results inits s)).

(** What a failed [addSession] leaves behind, and that the calls after it
    neither take its identifier nor bind it. *)
Definition skipped_for_good (s : GreetingServer) (inits : list bool) : Prop :=
  let failed := addSession false s in
  let later := add_sessions inits (state_after failed) in
  value_of failed = None
  ∧ sessions_ (state_after failed) = sessions_ s
  ∧ session_id_allocator_ (state_after failed) = wrap64 (session_id_allocator_ s + 1)
  ∧ (session_id_allocator_ (state_after failed) ≠ session_id_allocator_ s)
  ∧ (session_id_allocator_ s ∉ value_of later)
  ∧ (sessions_ (state_after later) !! session_id_allocator_ s
     = sessions_ s !! session_id_allocator_ s).

(** What the turn of one session does in the sweep of [stop] and in the
    sweep of the broadcaster. *)
Definition cancel_trace (it : Z * GreetingSession) : list action :=
  Lock (session_mutex it.1)
  :: (if decide (status_ it.2 ≠ WAIT_CONNECT) then [TryCancel it.1] else [])
  ++ [Unlock (session_mutex it.1)].

Definition reply_trace (it : Z * GreetingSession) : list action :=
  [Lock (session_mutex it.1); Reply it.1; Unlock (session_mutex it.1)].

(** The actions of a sweep of [stop] inside the registry lock. *)
Definition sweep_action (a : action) : Prop :=
  ∃ session_id,
    a = Lock (session_mutex session_id) ∨ a = TryCancel session_id
    ∨ a = Unlock (session_mutex session_id).

(** The server when [run] has set [running_] and started its threads, with
    nothing registered yet; [first_id] is the value the allocator starts
    from. *)
Definition started (first_id : Z) : system :=
  {| server := {| running_ := true; session_id_allocator_ := first_id; sessions_ := ∅ |};
     call_loop := AtNext;
     notification_loop := AtNext;
     pending := [] |}.

(** ** The locking discipline

    What a thread may do with the mutexes it holds ([held], the last taken
    first): [mutex_sessions_] is taken with nothing held; the mutex of a
    session is taken with nothing held or inside [mutex_sessions_]; a mutex
    is released when it is the last one taken; [process] is called holding
    the mutex of the session and nothing else; [reply] and [TryCancel] are
    called holding the mutex of the session inside [mutex_sessions_]; the
    flag and the transport are touched with nothing held.  [None] is a
    breach. *)
Definition discipline (held : list mutex) (a : action) : option (list mutex) :=
  match a with
  | Lock mutex_sessions_ =>
      if decide (held = []) then Some [mutex_sessions_] else None
  | Lock (session_mutex i) =>
      if decide (held = [] ∨ held = [mutex_sessions_])
      then Some (session_mutex i :: held) else None
  | Unlock m =>
      match held with
      | m' :: rest => if decide (m' = m) then Some rest else None
      | [] => None
      end
  | Process i _ =>
      if decide (held = [session_mutex i]) then Some held else None
  | Reply i | TryCancel i =>
      if decide (held = [session_mutex i; mutex_sessions_]) then Some held else None
  | SetRunning _ | ServerShutdown | CallQueueShutdown | NotificationQueueShutdown =>
      if decide (held = []) then Some held else None
  end.

(** The mutexes held at the end of a trace that keeps the discipline. *)
Fixpoint disciplined (held : list mutex) (trace : list action) : option (list mutex) :=
  match trace with
  | [] => Some held
  | a :: trace =>
      match discipline held a with
      | Some held' => disciplined held' trace
      | None => None
      end
  end.

(** The kinds a dispatch loop hands to [process]. *)
Definition processed_kind (event : GrpcEvent) : Prop :=
  event = GRPC_EVENT_CONNECTED ∨ event = GRPC_EVENT_READ_DONE
  ∨ event = GRPC_EVENT_WRITE_DONE.

(** An iteration past its lookup holds an identifier that [addSession] has
    handed out since the allocator was at [first_id], and a kind that
    [process] takes. *)
Definition held_allocated (first_id : Z) (sys : system) (it : iteration) : Prop :=
  match it with
  | AtNext => True
  | Looked i e _ _ =>
      first_id ≤ i < session_id_allocator_ (server sys) ∧ processed_kind e
  end.

(** * Properties *)

(** ** The codec *)

Lemma fits_kind_cases event :
  fits_kind event → event = 0 ∨ event = 1 ∨ event = 2 ∨ event = 3.
Proof. unfold fits_kind, GRPC_EVENT_MASK. lia. Qed.

Lemma enumerator_fits k : fits_kind (enumerator k).
Proof. destruct k; cbv; intuition congruence. Qed.

Lemma enumerator_inj k1 k2 : enumerator k1 = enumerator k2 → k1 = k2.
Proof. destruct k1, k2; cbv; congruence. Qed.

Lemma kind_high_bits event n : fits_kind event → 2 ≤ n → Z.testbit event n = false.
Proof.
  intros Hk Hn.
  destruct (fits_kind_cases event Hk) as [-> | [-> | [-> | ->]]];
    destruct n as [|[p|p|]|]; done.
Qed.

Lemma pack_sum session_id event :
  fits_kind event →
  Z.lor (Z.shiftl session_id GRPC_EVENT_BIT_LENGTH) event = session_id * 4 + event.
Proof.
  intros Hk.
  pose proof (Z.add_lor_land (Z.shiftl session_id GRPC_EVENT_BIT_LENGTH) event) as Hsum.
  replace (Z.land (Z.shiftl session_id GRPC_EVENT_BIT_LENGTH) event) with 0 in Hsum.
  - rewrite Z.shiftl_mul_pow2 in * by done. change (2 ^ GRPC_EVENT_BIT_LENGTH) with 4 in *. lia.
  - symmetry. apply Z.bits_inj'. intros n Hn.
    rewrite Z.land_spec, Z.bits_0.
    destruct (decide (n < 2)) as [Hlt|Hge].
    + rewrite Z.shiftl_spec_low by (unfold GRPC_EVENT_BIT_LENGTH; lia). done.
    + rewrite (kind_high_bits event n) by (done || lia). apply andb_false_r.
Qed.

Lemma decode_pack session_id event :
  fits_kind event → decode (session_id * 4 + event) = (session_id, event).
Proof.
  intros Hk. unfold fits_kind, GRPC_EVENT_MASK in Hk.
  unfold decode. f_equal.
  - rewrite Z.shiftr_div_pow2 by done. change (2 ^ GRPC_EVENT_BIT_LENGTH) with 4.
    symmetry. apply (Z.div_unique _ 4 session_id event); lia.
  - change GRPC_EVENT_MASK with (Z.ones 2). rewrite Z.land_ones by done.
    change (2 ^ 2) with 4.
    symmetry. apply (Z.mod_unique _ 4 session_id event); lia.
Qed.

(** C1.  For every session identifier and every event kind that fit in the
    bits the tag reserves for them, decoding the encoded tag gives the pair
    back: the kind is [tag & GRPC_EVENT_MASK], the identifier
    [tag >> GRPC_EVENT_BIT_LENGTH], and the identifier does not overflow into
    the bits of the kind. *)
Theorem decode_encode session_id event :
  fits_tag session_id → fits_kind event →
  decode (encode session_id event) = (session_id, event).
Proof.
  intros [Hlo Hhi] Hk. change (2 ^ (64 - GRPC_EVENT_BIT_LENGTH)) with (2 ^ 62) in Hhi.
  unfold encode. rewrite pack_sum by done.
  pose proof Hk as Hk'. unfold fits_kind, GRPC_EVENT_MASK in Hk'.
  unfold wrap64, UINT64_MODULUS. rewrite Z.mod_small by lia.
  by apply decode_pack.
Qed.

Lemma decode_encode_witness :
  fits_tag 5 ∧ fits_kind GRPC_EVENT_WRITE_DONE
  ∧ decode (encode 5 GRPC_EVENT_WRITE_DONE) = (5, GRPC_EVENT_WRITE_DONE).
Proof.
  assert (fits_tag 5) as Hid
    by (unfold fits_tag; change (64 - GRPC_EVENT_BIT_LENGTH) with 62; lia).
  assert (fits_kind GRPC_EVENT_WRITE_DONE) as Hk
    by (unfold fits_kind, GRPC_EVENT_WRITE_DONE, GRPC_EVENT_MASK; lia).
  split; [exact Hid|]. split; [exact Hk|]. exact (decode_encode 5 GRPC_EVENT_WRITE_DONE Hid Hk).
Defined.

(** ** The stream-print operator *)

(** C10.  The stream-print operator writes the exact name of each of the four
    declared kinds and returns the stream; on every other value of the
    enumeration type it falls off the end of the switch and returns nothing. *)
Theorem print_event_total_on_enumerators :
  (∀ os k, print_event os (enumerator k) = Some (os +:+ event_name k))
  ∧ (∀ os event, (∀ k, event ≠ enumerator k) → print_event os event = None).
Proof.
  split.
  - intros os []; reflexivity.
  - intros os event Hno. unfold print_event.
    pose proof (Hno CONNECTED_KIND). pose proof (Hno READ_DONE_KIND).
    pose proof (Hno WRITE_DONE_KIND). pose proof (Hno FINISHED_KIND).
    repeat case_decide; simpl in *; congruence.
Qed.

(** ** The registry *)

Lemma server_eq s1 s2 :
  running_ s1 = running_ s2 →
  session_id_allocator_ s1 = session_id_allocator_ s2 →
  sessions_ s1 = sessions_ s2 →
  s1 = s2.
Proof. destruct s1, s2; simpl; congruence. Qed.

Lemma removeSession_run sessionId s :
  removeSession sessionId s
  = (tt, state_after (update_sessions (delete sessionId) s),
     [Lock mutex_sessions_; Unlock mutex_sessions_]).
Proof. reflexivity. Qed.

Lemma getSession_run sessionId s :
  getSession sessionId s
  = (sessions_ s !! sessionId, s, [Lock mutex_sessions_; Unlock mutex_sessions_]).
Proof. reflexivity. Qed.

Lemma addSession_run init_ok s :
  addSession init_ok s
  = if init_ok then
      (Some (make_session (session_id_allocator_ s)),
       {| running_ := running_ s;
          session_id_allocator_ := wrap64 (session_id_allocator_ s + 1);
          sessions_ := <[session_id_allocator_ s := make_session (session_id_allocator_ s)]>
                         (sessions_ s) |},
       [Lock mutex_sessions_; Unlock mutex_sessions_])
    else
      (None,
       {| running_ := running_ s;
          session_id_allocator_ := wrap64 (session_id_allocator_ s + 1);
          sessions_ := sessions_ s |},
       []).
Proof. destruct init_ok; reflexivity. Qed.

Lemma removeSession_sessions sessionId s :
  sessions_ (state_after (removeSession sessionId s)) = delete sessionId (sessions_ s).
Proof. reflexivity. Qed.

(** C8.  Removing an identifier that is not in the registry changes nothing
    and raises nothing (the method returns normally, with the server as it
    was); and removing twice is removing once, whatever the registry holds. *)
Theorem removeSession_absent_noop sessionId s :
  sessions_ s !! sessionId = None →
  removeSession sessionId s = (tt, s, [Lock mutex_sessions_; Unlock mutex_sessions_])
  ∧ ∀ s', state_after (removeSession sessionId (state_after (removeSession sessionId s')))
          = state_after (removeSession sessionId s').
Proof.
  intros Habsent. split.
  - rewrite removeSession_run. do 2 f_equal.
    apply server_eq; simpl; try done. by apply delete_id.
  - intros s'. apply server_eq; simpl; try done. apply delete_delete_eq.
Qed.

Lemma removeSession_absent_noop_witness :
  let s := {| running_ := true; session_id_allocator_ := 2;
              sessions_ := {[ 0 := make_session 0 ]} |} in
  sessions_ s !! 1 = None
  ∧ removeSession 1 s = (tt, s, [Lock mutex_sessions_; Unlock mutex_sessions_]).
Proof.
  intros s.
  assert (sessions_ s !! 1 = None) as Habsent by reflexivity.
  split; [exact Habsent|].
  exact (proj1 (removeSession_absent_noop 1 s Habsent)).
Defined.

(** ** Sweeps over the registry *)

Lemma bind_run {A B} (m : M A) (f : A → M B) s :
  (m ≫= f) s
  = let '(a, s1, t1) := m s in
    let '(b, s2, t2) := f a s1 in
    (b, s2, t1 ++ t2).
Proof. reflexivity. Qed.

Lemma lock_guard_run {A} (m : mutex) (block : M A) s :
  lock_guard m block s
  = let '(a, s1, t1) := block s in (a, s1, Lock m :: t1 ++ [Unlock m]).
Proof.
  unfold lock_guard, mbind, M_bind, call, mret, M_ret.
  by destruct (block s) as [[a s1] t1].
Qed.

Lemma occurrences_app a t1 t2 :
  occurrences a (t1 ++ t2) = (occurrences a t1 + occurrences a t2)%nat.
Proof. unfold occurrences. by rewrite filter_app, length_app. Qed.

Lemma occurrences_cons a b t :
  occurrences a (b :: t) = ((if decide (b = a) then 1 else 0) + occurrences a t)%nat.
Proof. unfold occurrences. rewrite filter_cons. by case_decide. Qed.

(** A loop whose body only makes calls leaves the server as it is and makes
    the calls of its turns one after the other. *)
Lemma for_each_calls {A} (body : A → M unit) (out : A → list action) l :
  (∀ x s, body x s = (tt, s, out x)) →
  ∀ s, for_each l body s = (tt, s, flat_map out l).
Proof.
  intros Hbody. induction l as [|x l IH]; intros s; [done|].
  simpl. rewrite bind_run. by rewrite Hbody, IH.
Qed.

(** In a sweep over a list without repeated keys, an action that only the
    turn of [session_id] can make is made as often as that turn makes it. *)
Lemma occurrences_turns (out : Z * GreetingSession → list action) a session_id l :
  NoDup l.*1 →
  (∀ k v, k ≠ session_id → occurrences a (out (k, v)) = 0%nat) →
  occurrences a (flat_map out l)
  = match (list_to_map l : gmap Z GreetingSession) !! session_id with
    | Some v => occurrences a (out (session_id, v))
    | None => 0%nat
    end.
Proof.
  intros Hnodup Hother. induction l as [|[k v] l IH]; [done|].
  rewrite fmap_cons, NoDup_cons in Hnodup. destruct Hnodup as [Hk Hl].
  cbn [flat_map]. rewrite occurrences_app, IH by done. simpl.
  destruct (decide (k = session_id)) as [->|Hne].
  - rewrite lookup_insert_eq.
    rewrite (not_elem_of_list_to_map_1 (M := gmap Z) l session_id) by done. lia.
  - rewrite lookup_insert_ne by done. by rewrite Hother.
Qed.

Lemma occurrences_sweep (out : Z * GreetingSession → list action) a session_id
    (m : gmap Z GreetingSession) :
  (∀ k v, k ≠ session_id → occurrences a (out (k, v)) = 0%nat) →
  occurrences a (flat_map out (map_to_list m))
  = match m !! session_id with
    | Some v => occurrences a (out (session_id, v))
    | None => 0%nat
    end.
Proof.
  intros Hother.
  rewrite (occurrences_turns out a session_id) by (done || apply NoDup_fst_map_to_list).
  by rewrite list_to_map_to_list.
Qed.

Lemma cancel_one_run it s : cancel_one it s = (tt, s, cancel_trace it).
Proof. unfold cancel_one, cancel_trace. rewrite lock_guard_run. by case_decide. Qed.

Lemma reply_one_run it s : reply_one it s = (tt, s, reply_trace it).
Proof. reflexivity. Qed.

Lemma cancel_sweep_run s :
  cancel_sweep s
  = (tt, s, Lock mutex_sessions_
            :: flat_map cancel_trace (map_to_list (sessions_ s)) ++ [Unlock mutex_sessions_]).
Proof.
  unfold cancel_sweep. rewrite lock_guard_run, bind_run. cbn [read].
  by rewrite (for_each_calls cancel_one cancel_trace _ cancel_one_run).
Qed.

Lemma publish_sweep_run s :
  publish_sweep s
  = (tt, s, Lock mutex_sessions_
            :: flat_map reply_trace (map_to_list (sessions_ s)) ++ [Unlock mutex_sessions_]).
Proof.
  unfold publish_sweep. rewrite lock_guard_run, bind_run. cbn [read].
  by rewrite (for_each_calls reply_one reply_trace _ reply_one_run).
Qed.

Lemma stop_run s :
  stop s
  = if running_ s then
      (tt, state_after (write_running false s),
       SetRunning false
       :: Lock mutex_sessions_
       :: flat_map cancel_trace (map_to_list (sessions_ s))
       ++ [Unlock mutex_sessions_; ServerShutdown; CallQueueShutdown;
           NotificationQueueShutdown])
    else (tt, s, []).
Proof.
  unfold stop. rewrite bind_run. cbn [read]. destruct (running_ s) eqn:Hrun; [|done].
  cbn [negb]. rewrite bind_run. cbn [write_running].
  rewrite bind_run, cancel_sweep_run. cbn [sessions_].
  unfold mbind, M_bind, call. cbn [app]. by rewrite <- app_assoc.
Qed.

Lemma occurrences_cancel_trace session_id it :
  occurrences (TryCancel session_id) (cancel_trace it)
  = if decide (it.1 = session_id ∧ status_ it.2 ≠ WAIT_CONNECT) then 1%nat else 0%nat.
Proof.
  unfold cancel_trace. rewrite occurrences_cons, occurrences_app.
  destruct (decide (status_ it.2 ≠ WAIT_CONNECT)) as [Hs|Hs];
    rewrite !occurrences_cons; cbn [occurrences filter length list_filter];
    destruct (decide (it.1 = session_id ∧ status_ it.2 ≠ WAIT_CONNECT)) as [[? ?]|Hno];
    repeat destruct (decide _); simplify_eq; try done; exfalso; apply Hno; done.
Qed.

Lemma occurrences_reply_trace session_id it :
  occurrences (Reply session_id) (reply_trace it)
  = if decide (it.1 = session_id) then 1%nat else 0%nat.
Proof.
  unfold reply_trace. rewrite !occurrences_cons. repeat case_decide; naive_solver.
Qed.

(** ** Shutdown *)

(** C3.  In the cancellation sweep of [stop], a session whose status is
    [WAIT_CONNECT] gets no [TryCancel] call, and every registered session
    whose status is something else (a [CONNECTED] one in particular) gets
    exactly one; what is not registered gets none. *)
Theorem stop_cancels_all_but_waiting s session_id :
  running_ s = true →
  occurrences (TryCancel session_id) (trace_of (stop s))
  = match sessions_ s !! session_id with
    | Some session => if decide (status_ session = WAIT_CONNECT) then 0%nat else 1%nat
    | None => 0%nat
    end.
Proof.
  intros Hrun. rewrite stop_run, Hrun. unfold trace_of. cbn [snd].
  rewrite !occurrences_cons, occurrences_app, !occurrences_cons.
  rewrite (occurrences_sweep cancel_trace (TryCancel session_id) session_id).
  - destruct (sessions_ s !! session_id) as [session|]; [|by repeat case_decide].
    rewrite occurrences_cancel_trace. simpl.
    destruct (decide (status_ session = WAIT_CONNECT));
      repeat case_decide; simplify_eq; try done; tauto.
  - intros k v Hne. rewrite occurrences_cancel_trace. case_decide; [tauto|done].
Qed.

Lemma stop_cancels_all_but_waiting_witness :
  let s := {| running_ := true; session_id_allocator_ := 3;
              sessions_ := <[0 := {| session_id_ := 0; status_ := CONNECTED |}]>
                             (<[1 := {| session_id_ := 1; status_ := CLOSED |}]>
                                {[ 2 := make_session 2 ]}) |} in
  running_ s = true
  ∧ occurrences (TryCancel 0) (trace_of (stop s)) = 1%nat
  ∧ occurrences (TryCancel 2) (trace_of (stop s)) = 0%nat.
Proof.
  intros s. assert (running_ s = true) as Hrun by reflexivity.
  split; [exact Hrun|]. split.
  - rewrite (stop_cancels_all_but_waiting s 0 Hrun). reflexivity.
  - rewrite (stop_cancels_all_but_waiting s 2 Hrun). reflexivity.
Defined.

Lemma cancel_trace_sweep_actions l : Forall sweep_action (flat_map cancel_trace l).
Proof.
  induction l as [|it l IH]; [constructor|].
  cbn [flat_map]. apply Forall_app. split; [|done].
  unfold cancel_trace. case_decide; repeat constructor; exists it.1; naive_solver.
Qed.

Lemma elem_of_cancel_sweep session_id (m : gmap Z GreetingSession) :
  TryCancel session_id ∈ flat_map cancel_trace (map_to_list m)
  ↔ ∃ session, m !! session_id = Some session ∧ status_ session ≠ WAIT_CONNECT.
Proof.
  rewrite list_elem_of_In, in_flat_map. split.
  - intros [[k v] [Hin Hact]]. apply list_elem_of_In, elem_of_map_to_list in Hin.
    apply list_elem_of_In in Hact. unfold cancel_trace in Hact. simpl in Hact.
    case_decide; set_unfold; intuition simplify_eq; eauto.
  - intros [session [Hm Hs]]. exists (session_id, session). split.
    + by apply list_elem_of_In, elem_of_map_to_list.
    + apply list_elem_of_In. unfold cancel_trace. simpl. case_decide; set_solver.
Qed.

(** C4.  [stop] on a running server does its steps in this order and no
    other: it clears [running_]; it takes the registry lock, cancels the
    sessions that are not in [WAIT_CONNECT] and releases the lock; it shuts
    the listener down; then the call queue; then the notification queue.  On
    a server that is not running it does nothing at all. *)
Theorem stop_order s :
  if running_ s then
    ∃ cancels,
      trace_of (stop s)
      = [SetRunning false] ++ [Lock mutex_sessions_] ++ cancels
        ++ [Unlock mutex_sessions_]
        ++ [ServerShutdown] ++ [CallQueueShutdown] ++ [NotificationQueueShutdown]
      ∧ Forall sweep_action cancels
      ∧ (∀ session_id,
           TryCancel session_id ∈ cancels
           ↔ ∃ session, sessions_ s !! session_id = Some session
                        ∧ status_ session ≠ WAIT_CONNECT)
      ∧ running_ (state_after (stop s)) = false
  else stop s = (tt, s, []).
Proof.
  rewrite stop_run. destruct (running_ s); [|done].
  exists (flat_map cancel_trace (map_to_list (sessions_ s))).
  split; [done|]. split; [apply cancel_trace_sweep_actions|].
  split; [intros session_id; apply elem_of_cancel_sweep|done].
Qed.

(** ** The broadcaster *)

(** C7, as the code has it.  A turn of the broadcaster sweeps exactly when
    its loop condition found [running_] set, which it tests before the sleep
    and not again after it; and a sweep calls [reply] exactly once on every
    session that is in the registry when it sweeps and never on one that is
    not. *)
Theorem publish_replies_once others s session_id :
  value_of (publish_iteration others s) = running_ s
  ∧ trace_of (publish_iteration others s)
    = (if running_ s then trace_of (publish_sweep (others s)) else [])
  ∧ ∀ s', occurrences (Reply session_id) (trace_of (publish_sweep s'))
          = match sessions_ s' !! session_id with
            | Some _ => 1%nat
            | None => 0%nat
            end.
Proof.
  assert (publish_iteration others s
          = if running_ s then (true, others s, trace_of (publish_sweep (others s)))
            else (false, s, [])) as Hturn.
  { unfold publish_iteration. rewrite bind_run. cbn [read].
    destruct (running_ s); [|done]. cbn [negb]. rewrite bind_run.
    cbn [sleep_for]. rewrite bind_run, publish_sweep_run.
    unfold trace_of. cbn [snd mret M_ret app]. by rewrite app_nil_r. }
  rewrite Hturn. split; [by destruct (running_ s)|]. split; [by destruct (running_ s)|].
  intros s'. rewrite publish_sweep_run. unfold trace_of. cbn [snd].
  rewrite occurrences_cons, occurrences_app, occurrences_cons.
  rewrite (occurrences_sweep reply_trace (Reply session_id) session_id).
  - destruct (sessions_ s' !! session_id); [|by repeat case_decide].
    rewrite occurrences_reply_trace. simpl. repeat case_decide; simplify_eq; done.
  - intros k v Hne. rewrite occurrences_reply_trace. by case_decide.
Qed.

(** On a stopped server the loop of the broadcaster ends at once. *)
Lemma thread_publish_greeting_stopped sleeps s :
  running_ s = false → thread_publish_greeting sleeps s = (tt, s, []).
Proof.
  intros Hrun. destruct sleeps as [|others sleeps]; [done|].
  cbn [thread_publish_greeting]. rewrite bind_run.
  unfold publish_iteration. rewrite bind_run. cbn [read]. by rewrite Hrun.
Qed.

(** ** The dispatch loops *)

Lemma lookup_event_run tag ok s :
  lookup_event tag ok s
  = if decide ((decode tag).2 = GRPC_EVENT_FINISHED) then
      (AtNext, state_after (update_sessions (delete (decode tag).1) s),
       [Lock mutex_sessions_; Unlock mutex_sessions_])
    else
      match sessions_ s !! (decode tag).1 with
      | None => (AtNext, s, [Lock mutex_sessions_; Unlock mutex_sessions_])
      | Some session =>
          (Looked (decode tag).1 (decode tag).2 ok session, s,
           [Lock mutex_sessions_; Unlock mutex_sessions_])
      end.
Proof.
  unfold lookup_event, decode. cbn [fst snd]. case_decide; [done|].
  rewrite bind_run, getSession_run. by destruct (sessions_ s !! _).
Qed.

Lemma finish_event_run it s :
  finish_event it s
  = match it with
    | AtNext => (tt, s, [])
    | Looked session_id event ok _ =>
        if ok then
          (tt, s, [Lock (session_mutex session_id); Process session_id event;
                   Unlock (session_mutex session_id)])
        else
          (tt, state_after (update_sessions (delete session_id) s),
           [Lock mutex_sessions_; Unlock mutex_sessions_])
    end.
Proof. by destruct it as [|session_id event [] session]. Qed.

Lemma loop_body_run tag ok s :
  loop_body tag ok s
  = if decide ((decode tag).2 = GRPC_EVENT_FINISHED) then
      (tt, state_after (update_sessions (delete (decode tag).1) s),
       [Lock mutex_sessions_; Unlock mutex_sessions_])
    else
      match sessions_ s !! (decode tag).1 with
      | None => (tt, s, [Lock mutex_sessions_; Unlock mutex_sessions_])
      | Some _ =>
          if ok then
            (tt, s, [Lock mutex_sessions_; Unlock mutex_sessions_;
                     Lock (session_mutex (decode tag).1);
                     Process (decode tag).1 (decode tag).2;
                     Unlock (session_mutex (decode tag).1)])
          else
            (tt, state_after (update_sessions (delete (decode tag).1) s),
             [Lock mutex_sessions_; Unlock mutex_sessions_;
              Lock mutex_sessions_; Unlock mutex_sessions_])
      end.
Proof.
  unfold loop_body. rewrite bind_run, lookup_event_run.
  case_decide; [done|].
  destruct (sessions_ s !! (decode tag).1) as [session|]; [|done].
  rewrite finish_event_run. by destruct ok.
Qed.

Lemma routing_spec_run tag ok s :
  routing_spec tag ok s
  = if decide (ok = false ∨ (decode tag).2 = GRPC_EVENT_FINISHED) then
      (tt, state_after (update_sessions (delete (decode tag).1) s), [])
    else
      match sessions_ s !! (decode tag).1 with
      | None => (tt, s, [])
      | Some _ => (tt, s, [Process (decode tag).1 (decode tag).2])
      end.
Proof.
  unfold routing_spec, decode. cbn [fst snd]. case_decide; [done|].
  rewrite bind_run. cbn [read]. by destruct (sessions_ s !! _).
Qed.

Lemma delete_absent_server sessionId s :
  sessions_ s !! sessionId = None →
  state_after (update_sessions (delete sessionId) s) = s.
Proof.
  intros Habsent. apply server_eq; simpl; try done. by apply delete_id.
Qed.

(** C2.  An iteration of a dispatch loop on the event [(tag, ok)] leaves the
    server and makes the calls on sessions that the routing of the
    specification does.  If the decoded kind is [FINISHED] or [ok] is false,
    the session is out of the registry afterwards and [process] is not
    called; if the session is not in the registry the event is ignored, the
    server is left as it was and the iteration ends normally; otherwise
    [process] is called once, with the decoded kind, on the session that was
    looked up, between the lock and the unlock of its mutex.  No [process]
    call has kind [FINISHED] or comes with [ok] false. *)
Theorem loop_body_routes tag ok s :
  let session_id := (decode tag).1 in
  let event := (decode tag).2 in
  let result := loop_body tag ok s in
  state_after result = state_after (routing_spec tag ok s)
  ∧ calls (trace_of result) = trace_of (routing_spec tag ok s)
  ∧ (if decide (event = GRPC_EVENT_FINISHED ∨ ok = false) then
       sessions_ (state_after result) = delete session_id (sessions_ s)
       ∧ calls (trace_of result) = []
     else
       match sessions_ s !! session_id with
       | None => state_after result = s ∧ calls (trace_of result) = []
       | Some _ =>
           result = (tt, s, [Lock mutex_sessions_; Unlock mutex_sessions_;
                             Lock (session_mutex session_id);
                             Process session_id event;
                             Unlock (session_mutex session_id)])
       end)
  ∧ match sessions_ s !! session_id with
    | None => state_after result = s ∧ calls (trace_of result) = []
    | Some _ => True
    end
  ∧ Forall (λ a, ∀ i e, a = Process i e → e ≠ GRPC_EVENT_FINISHED ∧ ok = true)
      (trace_of result).
Proof.
  intros session_id event result. subst result.
  rewrite loop_body_run, routing_spec_run. fold session_id event.
  assert (∀ t, Forall (λ a, is_lock_op a = true) t →
               Forall (λ a, ∀ i e, a = Process i e → e ≠ GRPC_EVENT_FINISHED ∧ ok = true) t)
    as Hlocks.
  { intros t Ht. eapply Forall_impl; [exact Ht|]. intros a Ha i e ->. done. }
  destruct (decide (event = GRPC_EVENT_FINISHED)) as [Hfin|Hfin].
  - rewrite !decide_True by auto.
    destruct (sessions_ s !! session_id) eqn:Hs.
    + repeat split; try done. apply Hlocks. by repeat constructor.
    + repeat split; try done; try by apply delete_absent_server.
      apply Hlocks. by repeat constructor.
  - destruct (sessions_ s !! session_id) as [session|] eqn:Hs.
    + destruct ok.
      * rewrite !decide_False by (intros [?|?]; congruence).
        repeat split; try done.
        unfold trace_of. cbn [snd].
        repeat (apply List.Forall_cons; [intros i e He; by simplify_eq|]).
        apply List.Forall_nil.
      * rewrite !decide_True by auto.
        repeat split; try done. apply Hlocks. by repeat constructor.
    + assert (state_after (update_sessions (delete session_id) s) = s) as Hsame
        by by apply delete_absent_server.
      destruct ok.
      * rewrite !decide_False by (intros [?|?]; congruence).
        repeat split; try done. apply Hlocks. by repeat constructor.
      * rewrite !decide_True by auto.
        repeat split; try done.
        -- unfold state_after. cbn [fst snd update_sessions sessions_]. by rewrite delete_id.
        -- apply Hlocks. by repeat constructor.
Qed.

(** With a [process] that makes no call on the server, the iteration is the
    loop body. *)
Lemma loop_body_with_nil tag ok s : loop_body_with [] tag ok s = loop_body tag ok s.
Proof.
  unfold loop_body_with, loop_body. rewrite !bind_run.
  destruct (lookup_event tag ok s) as [[[|i e [] session] s1] t1]; reflexivity.
Qed.

Lemma loop_of_set_loop q it s sys : loop_of q (set_loop q it s sys) = it.
Proof. by destruct q. Qed.

Lemma server_set_loop q it s sys : server (set_loop q it s sys) = s.
Proof. by destruct q. Qed.

Lemma set_loop_twice q it1 it2 s1 s2 sys :
  set_loop q it2 s2 (set_loop q it1 s1 sys) = set_loop q it2 s2 sys.
Proof. by destruct q. Qed.

(** The two steps of an iteration, taken with nothing in between, are the
    loop body. *)
Lemma loop_body_steps q tag ok sys :
  loop_of q sys = AtNext →
  exec [Next q tag ok; Finish q] sys
  = (set_loop q AtNext (state_after (loop_body tag ok (server sys))) sys,
     trace_of (loop_body tag ok (server sys))).
Proof.
  intros Hloop. cbn [exec exec_step]. rewrite Hloop.
  unfold loop_body. rewrite bind_run.
  destruct (lookup_event tag ok (server sys)) as [[it s1] t1].
  rewrite loop_of_set_loop, server_set_loop.
  destruct (finish_event it s1) as [[[] s2] t2].
  unfold state_after, trace_of. cbn [fst snd].
  by rewrite set_loop_twice, app_nil_r.
Qed.

(** ** After a removal *)

Lemma processes_on_app session_id t1 t2 :
  processes_on session_id (t1 ++ t2)
  = (processes_on session_id t1 + processes_on session_id t2)%nat.
Proof. unfold processes_on. by rewrite filter_app, length_app. Qed.

Lemma processes_on_none session_id t :
  Forall (λ a, is_process_on session_id a = false) t → processes_on session_id t = 0%nat.
Proof.
  unfold processes_on. induction 1 as [|a t Ha _ IH]; [done|].
  rewrite filter_cons. case_decide; [congruence|done].
Qed.

Lemma processes_on_process session_id i e :
  processes_on session_id
    [Lock (session_mutex i); Process i e; Unlock (session_mutex i)]
  = if bool_decide (i = session_id) then 1%nat else 0%nat.
Proof.
  unfold processes_on. rewrite filter_cons_False by done.
  destruct (bool_decide (i = session_id)) eqn:Hi.
  - rewrite filter_cons_True by done. by rewrite filter_cons_False by done.
  - rewrite filter_cons_False by (cbn [is_process_on]; congruence).
    by rewrite filter_cons_False by done.
Qed.

Lemma sweep_trace_no_process session_id (out : Z * GreetingSession → list action) l :
  (∀ it, Forall (λ a, is_process_on session_id a = false) (out it)) →
  Forall (λ a, is_process_on session_id a = false) (flat_map out l).
Proof.
  intros Hout. induction l as [|it l IH]; [constructor|].
  cbn [flat_map]. apply Forall_app. by split.
Qed.

Lemma cancel_trace_no_process session_id it :
  Forall (λ a, is_process_on session_id a = false) (cancel_trace it).
Proof. unfold cancel_trace. case_decide; by repeat constructor. Qed.

Lemma reply_trace_no_process session_id it :
  Forall (λ a, is_process_on session_id a = false) (reply_trace it).
Proof. by repeat constructor. Qed.

Lemma additions_nonneg schedule : 0 ≤ additions schedule.
Proof. induction schedule as [|[] rest IH]; simpl; lia. Qed.

Lemma additions_cons st rest : additions (st :: rest) = additions [st] + additions rest.
Proof. destruct st; simpl; lia. Qed.

Lemma in_flight_set_loop session_id q it s sys :
  (in_flight session_id (set_loop q it s sys)
   + (if holds session_id (loop_of q sys) then 1 else 0)
   = in_flight session_id sys + (if holds session_id it then 1 else 0))%nat.
Proof. destruct q; unfold in_flight; simpl; lia. Qed.

Lemma take_out_Some x l l' :
  take_out x l = Some l' → x ∈ l ∧ ∀ y, y ∈ l' → y ∈ l.
Proof.
  revert l'. induction l as [|z l IH]; intros l' Hl; cbn in Hl; [done|].
  case_decide as Hz.
  - simplify_eq. split; [apply list_elem_of_here|]. intros y Hy. by apply list_elem_of_further.
  - destruct (take_out x l) as [l0|]; [|done]. cbn in Hl. simplify_eq.
    destruct (IH l0 eq_refl) as [Hx Hsub]. split; [by apply list_elem_of_further|].
    intros y [->|Hy]%elem_of_cons; [apply list_elem_of_here|].
    by apply list_elem_of_further, Hsub.
Qed.

Lemma addSession_rest_run new_session_id init_ok s :
  addSession_rest new_session_id init_ok s
  = if init_ok then
      (Some (make_session new_session_id),
       state_after (update_sessions (insert new_session_id (make_session new_session_id)) s),
       [Lock mutex_sessions_; Unlock mutex_sessions_])
    else (None, s, []).
Proof. by destruct init_ok. Qed.

(** [addSession] is its first line and then the rest. *)
Lemma addSession_halves init_ok s :
  addSession init_ok s
  = (new_session_id ← post_increment_allocator; addSession_rest new_session_id init_ok) s.
Proof. reflexivity. Qed.

(** A call of [addSession] that no other thread comes across does in its two
    steps what it does in one. *)
Lemma addSession_in_two_steps init_ok sys :
  exec [TakeIdentifier; FinishAddSession (session_id_allocator_ (server sys)) init_ok] sys
  = exec [AddSession init_ok] sys.
Proof.
  destruct sys as [s call notification taken]. cbn [exec exec_step server pending].
  rewrite addSession_halves, bind_run.
  cbn [post_increment_allocator set_pending server pending take_out
         call_loop notification_loop].
  rewrite decide_True by done.
  by destruct (addSession_rest (session_id_allocator_ s) init_ok _) as [[r s1] t1].
Qed.

(** The calls of [addSession] in progress after a step are those in progress
    before it and the one the step has begun. *)
Lemma exec_step_pending st sys k :
  k ∈ pending (exec_step st sys).1 →
  k ∈ pending sys ∨ (k = session_id_allocator_ (server sys) ∧ st = TakeIdentifier).
Proof.
  destruct st as [q tag ok|q|init_ok| |new_session_id init_ok|removed| |];
    cbn [exec_step].
  - destruct (loop_of q sys); [|by left].
    destruct (lookup_event tag ok (server sys)) as [[it s1] t1]. destruct q; by left.
  - destruct (finish_event (loop_of q sys) (server sys)) as [[r s1] t1]. destruct q; by left.
  - destruct (addSession init_ok (server sys)) as [[r s1] t1]. by left.
  - cbn. intros [->|Hk]%elem_of_cons; [by right|by left].
  - destruct (take_out new_session_id (pending sys)) as [others|] eqn:Htake; [|by left].
    destruct (addSession_rest new_session_id init_ok (server sys)) as [[r s1] t1].
    cbn. intros Hk. left. by apply (take_out_Some _ _ _ Htake).
  - destruct (removeSession removed (server sys)) as [[r s1] t1]. by left.
  - destruct (publish_sweep (server sys)) as [[r s1] t1]. by left.
  - destruct (stop (server sys)) as [[r s1] t1]. by left.
Qed.

Section gone.

(** The session that has been removed. *)
Variable session_id : Z.

(** One step of any thread keeps an allocated identifier that is out of
    the registry out of it, and calls [process] on it only to end an
    iteration that had looked it up before. *)
Lemma exec_step_gone st sys :
  sessions_ (server sys) !! session_id = None →
  session_id ∉ pending sys →
  0 ≤ session_id < session_id_allocator_ (server sys) →
  session_id_allocator_ (server sys) + additions [st] < UINT64_MODULUS →
  sessions_ (server (exec_step st sys).1) !! session_id = None
  ∧ session_id_allocator_ (server (exec_step st sys).1)
    = session_id_allocator_ (server sys) + additions [st]
  ∧ (processes_on session_id (exec_step st sys).2
     + in_flight session_id (exec_step st sys).1
     ≤ in_flight session_id sys)%nat.
Proof.
  intros Hgone Hpending Hid Hroom.
  destruct st as [q tag ok|q|init_ok| |new_session_id init_ok|removed| |];
    cbn [exec_step].
  - destruct (loop_of q sys) as [|i e ok' session] eqn:Hloop.
    2:{ cbn [fst snd additions]. split; [done|]. split; [lia|].
        rewrite processes_on_none by constructor. lia. }
    rewrite lookup_event_run.
    case_decide.
    + cbn [fst snd additions]. split; [|split; [destruct q; simpl; lia|]].
      * destruct q; simpl; by rewrite lookup_delete_None; right.
      * pose proof (in_flight_set_loop session_id q AtNext
          (state_after (update_sessions (delete (decode tag).1) (server sys))) sys) as Hset.
        rewrite Hloop in Hset. cbn [holds] in Hset.
        rewrite processes_on_none by (by repeat constructor). lia.
    + destruct (sessions_ (server sys) !! (decode tag).1) as [session|] eqn:Hfound.
      * cbn [fst snd additions]. split; [by destruct q|]. split; [destruct q; simpl; lia|].
        pose proof (in_flight_set_loop session_id q
          (Looked (decode tag).1 (decode tag).2 ok session) (server sys) sys) as Hset.
        rewrite Hloop in Hset. cbn [holds] in Hset.
        assert ((decode tag).1 ≠ session_id) as Hne by congruence.
        rewrite bool_decide_false in Hset by done. cbn [andb] in Hset.
        rewrite processes_on_none by (by repeat constructor). lia.
      * cbn [fst snd additions]. split; [by destruct q|]. split; [destruct q; simpl; lia|].
        pose proof (in_flight_set_loop session_id q AtNext (server sys) sys) as Hset.
        rewrite Hloop in Hset. cbn [holds] in Hset.
        rewrite processes_on_none by (by repeat constructor). lia.
  - rewrite finish_event_run.
    destruct (loop_of q sys) as [|i e ok' session] eqn:Hloop.
    + cbn [fst snd additions]. split; [by destruct q|]. split; [destruct q; simpl; lia|].
      pose proof (in_flight_set_loop session_id q AtNext (server sys) sys) as Hset.
      rewrite Hloop in Hset. cbn [holds] in Hset.
      rewrite processes_on_none by constructor. lia.
    + destruct ok'.
      * cbn [fst snd additions]. split; [by destruct q|]. split; [destruct q; simpl; lia|].
        pose proof (in_flight_set_loop session_id q AtNext (server sys) sys) as Hset.
        rewrite Hloop in Hset. cbn [holds] in Hset.
        rewrite andb_true_r in Hset. rewrite processes_on_process.
        destruct (bool_decide (i = session_id)); lia.
      * cbn [fst snd additions]. split; [|split; [destruct q; simpl; lia|]].
        -- destruct q; simpl; by rewrite lookup_delete_None; right.
        -- pose proof (in_flight_set_loop session_id q AtNext
             (state_after (update_sessions (delete i) (server sys))) sys) as Hset.
           rewrite Hloop in Hset. cbn [holds] in Hset.
           rewrite andb_false_r in Hset.
           rewrite processes_on_none by (by repeat constructor). lia.
  - rewrite addSession_run. cbn [additions] in *.
    assert (wrap64 (session_id_allocator_ (server sys) + 1)
            = session_id_allocator_ (server sys) + 1) as Hwrap
      by (unfold wrap64; apply Z.mod_small; lia).
    destruct init_ok; cbn [fst snd set_server server session_id_allocator_ sessions_].
    + split; [by rewrite lookup_insert_ne by lia|]. split; [lia|].
      rewrite processes_on_none by (by repeat constructor). by cbn.
    + split; [done|]. split; [lia|].
      rewrite processes_on_none by constructor. by cbn.
  - cbn [post_increment_allocator fst snd set_pending server session_id_allocator_
           sessions_ additions] in *.
    split; [done|]. split; [unfold wrap64; apply Z.mod_small; lia|].
    rewrite processes_on_none by constructor. by cbn.
  - destruct (take_out new_session_id (pending sys)) as [others|] eqn:Htake.
    2:{ cbn [fst snd additions]. split; [done|]. split; [lia|].
        rewrite processes_on_none by constructor. lia. }
    assert (new_session_id ≠ session_id) as Hne.
    { destruct (take_out_Some _ _ _ Htake) as [Hin _]. by intros ->. }
    rewrite addSession_rest_run. destruct init_ok;
      cbn [fst snd set_pending server session_id_allocator_ sessions_ additions
             state_after update_sessions].
    + split; [by rewrite lookup_insert_ne|]. split; [lia|].
      rewrite processes_on_none by (by repeat constructor). by cbn.
    + split; [done|]. split; [lia|].
      rewrite processes_on_none by constructor. by cbn.
  - rewrite removeSession_run. cbn [fst snd set_server server additions].
    split; [simpl; by rewrite lookup_delete_None; right|]. split; [simpl; lia|].
    rewrite processes_on_none by (by repeat constructor). by cbn.
  - rewrite publish_sweep_run. cbn [fst snd set_server server additions].
    split; [done|]. split; [lia|].
    rewrite processes_on_none; [by cbn|].
    constructor; [done|]. apply Forall_app. split; [|by repeat constructor].
    apply sweep_trace_no_process, reply_trace_no_process.
  - rewrite stop_run.
    destruct (running_ (server sys)); cbn [fst snd set_server server additions].
    + split; [done|]. split; [simpl; lia|].
      rewrite processes_on_none; [by cbn|].
      do 2 (constructor; [done|]). apply Forall_app. split; [|by repeat constructor].
      apply sweep_trace_no_process, cancel_trace_no_process.
    + split; [done|]. split; [lia|].
      rewrite processes_on_none by constructor. by cbn.
Qed.
Lemma exec_cons st rest sys :
  exec (st :: rest) sys
  = ((exec rest (exec_step st sys).1).1,
     (exec_step st sys).2 ++ (exec rest (exec_step st sys).1).2).
Proof.
  change (exec (st :: rest) sys)
    with (let '(sys1, t1) := exec_step st sys in
          let '(sys2, t2) := exec rest sys1 in (sys2, t1 ++ t2)).
  destruct (exec_step st sys) as [sys1 t1]. cbn [fst snd].
  by destruct (exec rest sys1) as [sys2 t2].
Qed.

Lemma exec_gone schedule : ∀ sys,
  sessions_ (server sys) !! session_id = None →
  session_id ∉ pending sys →
  0 ≤ session_id < session_id_allocator_ (server sys) →
  session_id_allocator_ (server sys) + additions schedule < UINT64_MODULUS →
  sessions_ (server (exec schedule sys).1) !! session_id = None
  ∧ (processes_on session_id (exec schedule sys).2 ≤ in_flight session_id sys)%nat.
Proof.
  induction schedule as [|st rest IH]; intros sys Hgone Hpending Hid Hroom.
  - split; [done|]. cbn. unfold processes_on. simpl. lia.
  - rewrite additions_cons in Hroom.
    pose proof (additions_nonneg rest) as Hrest.
    pose proof (additions_nonneg [st]) as Hst.
    destruct (exec_step_gone st sys Hgone Hpending Hid) as (Hgone1 & Halloc1 & Hcount1);
      [lia|].
    assert (session_id ∉ pending (exec_step st sys).1) as Hpending1.
    { intros [Hin|[Heq _]]%exec_step_pending; [done|lia]. }
    destruct (IH (exec_step st sys).1 Hgone1 Hpending1) as [Hgone2 Hcount2]; [lia..|].
    rewrite exec_cons. cbn [fst snd]. split; [done|].
    rewrite processes_on_app. lia.
Qed.

Lemma dispatches_removal_gone st sys :
  dispatches_removal st sys session_id = true →
  sessions_ (server (exec_step st sys).1) !! session_id = None
  ∧ session_id_allocator_ (server (exec_step st sys).1)
    = session_id_allocator_ (server sys)
  ∧ pending (exec_step st sys).1 = pending sys
  ∧ (in_flight session_id (exec_step st sys).1 ≤ 1)%nat.
Proof.
  assert (∀ q it s, holds session_id it = false →
            (in_flight session_id (set_loop q it s sys) ≤ 1)%nat) as Hone.
  { intros q it s Hit. destruct q; unfold in_flight; simpl; rewrite Hit;
      repeat destruct (holds _ _); lia. }
  destruct st as [q tag ok|q|init_ok| |new_session_id init_ok|removed| |];
    cbn [dispatches_removal exec_step]; try done.
  - destruct (loop_of q sys) as [|i e ok' session] eqn:Hloop; [|done].
    intros [Hid Hwhy]%andb_true_iff. apply bool_decide_eq_true in Hid.
    rewrite lookup_event_run. case_decide as Hfin.
    + cbn [fst snd]. split; [|split; [by destruct q|split; [by destruct q|by apply Hone]]].
      rewrite Hid. destruct q; simpl; apply lookup_delete_eq.
    + rewrite bool_decide_false in Hwhy by done. cbn [orb] in Hwhy.
      apply andb_true_iff in Hwhy as [_ Habsent]. rewrite Hid.
      destruct (sessions_ (server sys) !! session_id) eqn:Hfound; [done|].
      cbn [fst snd]. split; [by destruct q|].
      split; [by destruct q|split; [by destruct q|by apply Hone]].
  - rewrite finish_event_run.
    destruct (loop_of q sys) as [|i e ok' session] eqn:Hloop; [done|].
    intros [Hid Hok]%andb_true_iff. apply bool_decide_eq_true in Hid.
    apply negb_true_iff in Hok. subst i ok'.
    cbn [fst snd]. split; [|split; [by destruct q|split; [by destruct q|by apply Hone]]].
    destruct q; simpl; apply lookup_delete_eq.
Qed.

End gone.

(** C5, as the code has it.  Take a session whose identifier fits in the
    tag and whose call of [addSession] has returned.  Once an iteration has
    ended on a [FINISHED] event or a completion that was not ok for it, then
    as long as the 64-bit allocator does not wrap around, every lookup of
    that session finds nothing, whatever the threads do afterwards, calls of
    [addSession] that other threads run through line by line included; and
    [process] is called on it at most for the events that the other loop had
    already looked up when the session was removed, of which there is at
    most one: an iteration that takes its event after the removal never
    calls it. *)
Theorem removed_session_stays_removed st sys session_id schedule :
  dispatches_removal st sys session_id = true →
  fits_tag session_id →
  session_id ∉ pending sys →
  0 ≤ session_id < session_id_allocator_ (server sys) →
  session_id_allocator_ (server sys) + additions schedule < UINT64_MODULUS →
  let removed := (exec_step st sys).1 in
  value_of (getSession session_id (server (exec schedule removed).1)) = None
  ∧ (processes_on session_id (exec schedule removed).2 ≤ in_flight session_id removed)%nat
  ∧ (in_flight session_id removed ≤ 1)%nat
  ∧ (in_flight session_id removed = 0%nat → gone_for_good session_id removed schedule).
Proof.
  intros Hremoval _ Hreturned Hid Hroom removed.
  destruct (dispatches_removal_gone session_id st sys Hremoval)
    as (Hgone & Halloc & Hpending & Hone).
  fold removed in Hgone, Halloc, Hpending, Hone.
  destruct (exec_gone session_id schedule removed Hgone) as [Hgone' Hcount];
    [by rewrite Hpending|lia..|].
  assert (value_of (getSession session_id (server (exec schedule removed).1)) = None)
    as Hlookup by by rewrite getSession_run.
  split; [done|]. split; [done|]. split; [done|].
  intros Hnone. split; [done|]. lia.
Qed.

(** ** The identifier allocator *)

Lemma add_sessions_cons init_ok rest s :
  value_of (add_sessions (init_ok :: rest) s)
  = session_id_allocator_ s
    :: value_of (add_sessions rest (state_after (addSession init_ok s)))
  ∧ state_after (add_sessions (init_ok :: rest) s)
    = state_after (add_sessions rest (state_after (addSession init_ok s))).
Proof.
  cbn [add_sessions]. unfold mbind, M_bind, read, mret, M_ret.
  destruct (addSession init_ok s) as [[r s1] t1].
  unfold state_after, value_of. cbn [fst snd].
  by destruct (add_sessions rest s1) as [[ids s2] t2].
Qed.

Lemma addSession_allocator init_ok s :
  session_id_allocator_ (state_after (addSession init_ok s))
  = wrap64 (session_id_allocator_ s + 1).
Proof. rewrite addSession_run. by destruct init_ok. Qed.

Lemma addSession_sessions init_ok s k :
  k ≠ session_id_allocator_ s →
  sessions_ (state_after (addSession init_ok s)) !! k = sessions_ s !! k.
Proof.
  intros Hk. rewrite addSession_run. destruct init_ok; [|done].
  unfold state_after. cbn [fst snd sessions_]. by rewrite lookup_insert_ne.
Qed.

Lemma wrap64_small z : uint64 z → wrap64 z = z.
Proof. intros Hz. by apply Z.mod_small. Qed.

Lemma wrap64_uint64 z : uint64 (wrap64 z).
Proof. unfold uint64, wrap64, UINT64_MODULUS. by apply Z.mod_pos_bound. Qed.

Lemma wrap64_add_l a b : wrap64 (wrap64 a + b) = wrap64 (a + b).
Proof. unfold wrap64, UINT64_MODULUS. apply Zplus_mod_idemp_l. Qed.

Lemma add_sessions_length inits : ∀ s,
  length (value_of (add_sessions inits s)) = length inits.
Proof.
  induction inits as [|init_ok rest IH]; intros s; [done|].
  rewrite (proj1 (add_sessions_cons init_ok rest s)). simpl. by rewrite IH.
Qed.

(** The [j]-th call takes the [j]-th identifier after the first, modulo
    [2^64]. *)
Lemma add_sessions_lookup inits : ∀ s a (j : nat),
  session_id_allocator_ s = wrap64 a →
  (j < length inits)%nat →
  value_of (add_sessions inits s) !! j = Some (wrap64 (a + Z.of_nat j)).
Proof.
  induction inits as [|init_ok rest IH]; intros s a j Ha Hj; [simpl in Hj; lia|].
  rewrite (proj1 (add_sessions_cons init_ok rest s)).
  destruct j as [|j].
  - simpl. rewrite Ha. do 2 f_equal. lia.
  - cbn [lookup list_lookup]. rewrite (IH _ (a + 1)).
    + do 2 f_equal. lia.
    + by rewrite addSession_allocator, Ha, wrap64_add_l.
    + simpl in Hj. lia.
Qed.

Lemma add_sessions_sessions inits : ∀ s k,
  k ∉ value_of (add_sessions inits s) →
  sessions_ (state_after (add_sessions inits s)) !! k = sessions_ s !! k.
Proof.
  induction inits as [|init_ok rest IH]; intros s k Hk; [done|].
  destruct (add_sessions_cons init_ok rest s) as [Hids Hstate].
  rewrite Hids in Hk. rewrite Hstate.
  apply not_elem_of_cons in Hk as [Hne Hrest].
  rewrite IH by done. by apply addSession_sessions.
Qed.

Lemma add_sessions_increase inits : ∀ s,
  uint64 (session_id_allocator_ s) →
  session_id_allocator_ s + Z.of_nat (length inits) ≤ UINT64_MODULUS →
  StronglySorted Z.lt (value_of (add_sessions inits s))
  ∧ Forall (λ id, session_id_allocator_ s ≤ id) (value_of (add_sessions inits s)).
Proof.
  induction inits as [|init_ok rest IH]; intros s Hs Hroom.
  - split; constructor.
  - rewrite (proj1 (add_sessions_cons init_ok rest s)).
    destruct rest as [|init_ok' rest'].
    + split; repeat constructor. lia.
    + assert (wrap64 (session_id_allocator_ s + 1) = session_id_allocator_ s + 1) as Hnext.
      { apply wrap64_small. unfold uint64 in *. cbn [length] in Hroom. lia. }
      destruct (IH (state_after (addSession init_ok s))) as [Hsorted Hlower].
      * rewrite addSession_allocator. apply wrap64_uint64.
      * rewrite addSession_allocator, Hnext. cbn [length] in *. lia.
      * rewrite addSession_allocator, Hnext in Hlower.
        split.
        -- constructor; [done|].
           eapply Forall_impl; [exact Hlower|]. intros id Hid. simpl in Hid. lia.
        -- constructor; [lia|].
           eapply Forall_impl; [exact Hlower|]. intros id Hid. simpl in Hid. lia.
Qed.

Lemma increasing_NoDup (l : list Z) : StronglySorted Z.lt l → NoDup l.
Proof.
  induction 1 as [|x l _ IH Hx]; constructor; [|done].
  intros Hin. rewrite Forall_forall in Hx. specialize (Hx x Hin). lia.
Qed.

Lemma addSession_results_cons init_ok rest s :
  value_of (addSession_results (init_ok :: rest) s)
  = value_of (addSession init_ok s)
    :: value_of (addSession_results rest (state_after (addSession init_ok s)))
  ∧ state_after (addSession_results (init_ok :: rest) s)
    = state_after (addSession_results rest (state_after (addSession init_ok s))).
Proof.
  cbn [addSession_results]. unfold mbind, M_bind, mret, M_ret.
  destruct (addSession init_ok s) as [[r s1] t1].
  unfold state_after, value_of. cbn [fst snd].
  by destruct (addSession_results rest s1) as [[results s2] t2].
Qed.

Lemma addSession_results_state inits : ∀ s,
  state_after (addSession_results inits s) = state_after (add_sessions inits s).
Proof.
  induction inits as [|init_ok rest IH]; intros s; [done|].
  rewrite (proj2 (addSession_results_cons init_ok rest s)).
  rewrite (proj2 (add_sessions_cons init_ok rest s)). apply IH.
Qed.

(** Each call leaves its session under the identifier it took, and the calls
    after it, which take greater identifiers, leave it there. *)
Lemma add_sessions_assigned inits : ∀ s before,
  uint64 (session_id_allocator_ s) →
  session_id_allocator_ s + Z.of_nat (length inits) ≤ UINT64_MODULUS →
  (∀ k, session_id_allocator_ s ≤ k → sessions_ s !! k = sessions_ before !! k) →
  Forall2 (assigned before (state_after (add_sessions inits s)))
    (value_of (add_sessions inits s)) (value_of (addSession_results inits s)).
Proof.
  induction inits as [|init_ok rest IH]; intros s before Hs Hroom Hbefore.
  - constructor.
  - destruct (add_sessions_cons init_ok rest s) as [Hids Hstate].
    rewrite Hids, Hstate, (proj1 (addSession_results_cons init_ok rest s)).
    set (s1 := state_after (addSession init_ok s)).
    assert ((session_id_allocator_ s ∉ value_of (add_sessions rest s1))
            ∧ Forall2 (assigned before (state_after (add_sessions rest s1)))
                (value_of (add_sessions rest s1)) (value_of (addSession_results rest s1)))
      as [Hfresh Hrest].
    { destruct rest as [|init_ok' rest']; [split; [apply not_elem_of_nil|constructor]|].
      assert (session_id_allocator_ s1 = session_id_allocator_ s + 1) as Hnext.
      { unfold s1. rewrite addSession_allocator. apply wrap64_small.
        unfold uint64 in *. cbn [length] in Hroom. lia. }
      assert (uint64 (session_id_allocator_ s1)) as Hs1.
      { unfold s1. rewrite addSession_allocator. apply wrap64_uint64. }
      assert (session_id_allocator_ s1 + Z.of_nat (length (init_ok' :: rest'))
              ≤ UINT64_MODULUS) as Hroom1 by (cbn [length] in *; lia).
      split.
      - destruct (add_sessions_increase (init_ok' :: rest') s1 Hs1 Hroom1) as [_ Hlower].
        intros Hin. rewrite Forall_forall in Hlower. specialize (Hlower _ Hin). lia.
      - apply IH; [done..|]. intros k Hk.
        rewrite <- Hbefore by lia. apply addSession_sessions. lia. }
    constructor; [|done].
    pose proof (add_sessions_sessions rest s1 _ Hfresh) as Hkept.
    unfold assigned. rewrite Hkept. unfold s1. rewrite addSession_run.
    destruct init_ok; cbn.
    + split; [done|]. apply lookup_insert_eq.
    + apply Hbefore. lia.
Qed.

(** C6, as the code has it.  As long as the 64-bit allocator does not wrap
    around, each call of [addSession] takes an identifier greater than every
    one taken before, no identifier is taken twice, and the session a call
    returns carries the identifier the call took and is the one registered
    under it when all the calls have returned: no identifier is assigned to
    two different sessions. *)
Theorem identifiers_increase_until_wrap s inits :
  uint64 (session_id_allocator_ s) →
  session_id_allocator_ s + Z.of_nat (length inits) ≤ UINT64_MODULUS →
  identifiers_increase s inits.
Proof.
  intros Hs Hroom.
  destruct (add_sessions_increase inits s Hs Hroom) as [Hsorted _].
  split; [done|]. split; [by apply increasing_NoDup|].
  rewrite addSession_results_state. by apply add_sessions_assigned.
Qed.

Lemma wrap64_not_back a j :
  uint64 a → 0 ≤ j → j + 1 < UINT64_MODULUS → wrap64 (a + 1 + j) ≠ a.
Proof.
  unfold uint64, wrap64, UINT64_MODULUS.
  change (2 ^ 64) with 18446744073709551616. intros Ha Hj Hroom.
  destruct (decide (a + 1 + j < 18446744073709551616)) as [Hsmall|Hbig].
  - rewrite Z.mod_small by lia. lia.
  - rewrite <- (Z_mod_plus_full _ (-1)). rewrite Z.mod_small by lia. lia.
Qed.

(** C9, as the code has it.  When the initialisation of the new session
    fails, [addSession] returns null and leaves the registry as it was, the
    allocator has moved on, and the identifier it took is skipped: none of
    the following calls takes it or binds it in the registry, up to the
    [2^64 - 1] calls after which the 64-bit allocator has come round. *)
Theorem failed_addSession_skips s inits :
  uint64 (session_id_allocator_ s) →
  Z.of_nat (length inits) < UINT64_MODULUS →
  skipped_for_good s inits.
Proof.
  intros Hs Hcalls. unfold skipped_for_good. cbv zeta.
  assert (session_id_allocator_ s
            ∉ value_of (add_sessions inits (state_after (addSession false s)))) as Hfresh.
  { intros [j Hj]%list_elem_of_lookup_1.
    pose proof (lookup_lt_Some _ _ _ Hj) as Hlen. rewrite add_sessions_length in Hlen.
    rewrite (add_sessions_lookup inits _ (session_id_allocator_ s + 1) j) in Hj;
      [|by rewrite addSession_allocator|done].
    injection Hj as Hj. apply (wrap64_not_back (session_id_allocator_ s) (Z.of_nat j)); [done|lia..]. }
  split; [done|]. split; [done|]. split; [done|]. split.
  - cbn. pose proof (wrap64_not_back (session_id_allocator_ s) 0 Hs) as Hne.
    rewrite Z.add_0_r in Hne. apply Hne; [done|]. by unfold UINT64_MODULUS.
  - split; [done|]. by rewrite add_sessions_sessions.
Qed.

(** After [2^64] more calls the allocator is back at the identifier that a
    call took. *)
Lemma allocator_comes_round init_ok s (n : nat) :
  Z.of_nat n = UINT64_MODULUS →
  session_id_allocator_ s = wrap64 (session_id_allocator_ s) →
  session_id_allocator_ s
    ∈ value_of (add_sessions (replicate n true) (state_after (addSession init_ok s))).
Proof.
  intros Hn Hs.
  assert (0 < UINT64_MODULUS) as Hpos by done.
  apply (list_elem_of_lookup_2 _ (Nat.pred n)).
  rewrite (add_sessions_lookup _ _ (session_id_allocator_ s + 1) (Nat.pred n)).
  - f_equal. transitivity (wrap64 (session_id_allocator_ s)); [|done].
    unfold wrap64.
    replace (session_id_allocator_ s + 1 + Z.of_nat (Nat.pred n))
      with (session_id_allocator_ s + 1 * UINT64_MODULUS) by lia.
    by rewrite Z_mod_plus_full.
  - by rewrite addSession_allocator.
  - rewrite length_replicate. lia.
Qed.

(** ** Instances *)

(** C5 does not hold as it is stated, for four reasons.  First: the
    notification loop has looked session 0 up for its [CONNECTED] event when
    the call loop takes the [FINISHED] event of the same session and removes
    it; the notification loop then goes on and calls [process] on the removed
    session.  Second: with the allocator at its last value and session 0
    removed, the second [addSession] after the removal registers identifier 0
    again.  Third: [addSession] has taken identifier 0 and has not yet
    registered the session when a completion that is not ok arrives for it;
    the loop finds nothing and drops the event, and [addSession] then
    registers the session, which stays.  Fourth: the tag of the [FINISHED]
    event of session [2^62] has no room for the identifier; the loop decodes
    session 0 from it and removes that one, and session [2^62] stays. *)
Lemma removed_session_processed_or_back :
  (let sys := (exec [AddSession true;
                     Next NOTIFICATION (encode 0 GRPC_EVENT_CONNECTED) true]
                 (started 0)).1 in
   let st := Next CALL (encode 0 GRPC_EVENT_FINISHED) true in
   dispatches_removal st sys 0 = true
   ∧ ¬ gone_for_good 0 (exec_step st sys).1 [Finish NOTIFICATION])
  ∧ (let sys := {| server := {| running_ := true;
                                session_id_allocator_ := UINT64_MODULUS - 1;
                                sessions_ := {[ 0 := {| session_id_ := 0;
                                                        status_ := CONNECTED |} ]} |};
                   call_loop := AtNext;
                   notification_loop := AtNext;
                   pending := [] |} in
     let st := Next CALL (encode 0 GRPC_EVENT_FINISHED) true in
     dispatches_removal st sys 0 = true
     ∧ ¬ gone_for_good 0 (exec_step st sys).1 [AddSession true; AddSession true])
  ∧ (let sys := (exec [TakeIdentifier] (started 0)).1 in
     let st := Next NOTIFICATION (encode 0 GRPC_EVENT_CONNECTED) false in
     dispatches_removal st sys 0 = true
     ∧ ¬ gone_for_good 0 (exec_step st sys).1 [FinishAddSession 0 true])
  ∧ (let last := 2 ^ 62 in
     let sys := {| server := {| running_ := true;
                                session_id_allocator_ := last + 1;
                                sessions_ := {[ 0 := {| session_id_ := 0;
                                                        status_ := CONNECTED |};
                                                last := {| session_id_ := last;
                                                           status_ := CONNECTED |} ]} |};
                   call_loop := AtNext;
                   notification_loop := AtNext;
                   pending := [] |} in
     let st := Next CALL (encode last GRPC_EVENT_FINISHED) true in
     dispatches_removal st sys last = false
     ∧ dispatches_removal st sys 0 = true
     ∧ ¬ gone_for_good last (exec_step st sys).1 []).
Proof.
  split; [|split; [|split]]; cbv zeta.
  - split; [by vm_compute|]. intros [_ Hnone]. vm_compute in Hnone. discriminate.
  - split; [by vm_compute|]. intros [Hlookup _]. vm_compute in Hlookup. discriminate.
  - split; [by vm_compute|]. intros [Hlookup _]. vm_compute in Hlookup. discriminate.
  - split; [by vm_compute|]. split; [by vm_compute|].
    intros [Hlookup _]. vm_compute in Hlookup. discriminate.
Qed.

Lemma removed_session_stays_removed_witness :
  let sys := (exec [AddSession true; AddSession true] (started 0)).1 in
  let st := Next CALL (encode 0 GRPC_EVENT_FINISHED) true in
  let schedule := [TakeIdentifier;
                   Next NOTIFICATION (encode 0 GRPC_EVENT_READ_DONE) true;
                   Finish NOTIFICATION; FinishAddSession 2 true;
                   AddSession false; Sweep; Stop] in
  dispatches_removal st sys 0 = true
  ∧ fits_tag 0
  ∧ (0 ∉ pending sys)
  ∧ 0 ≤ 0 < session_id_allocator_ (server sys)
  ∧ session_id_allocator_ (server sys) + additions schedule < UINT64_MODULUS
  ∧ gone_for_good 0 (exec_step st sys).1 schedule.
Proof.
  intros sys st schedule.
  assert (dispatches_removal st sys 0 = true) as Hremoval by (by vm_compute).
  assert (fits_tag 0) as Hfits by (split; by vm_compute).
  assert (0 ∉ pending sys) as Hreturned by (vm_compute; apply not_elem_of_nil).
  assert (0 ≤ 0 < session_id_allocator_ (server sys)) as Hid
    by (split; by vm_compute).
  assert (session_id_allocator_ (server sys) + additions schedule < UINT64_MODULUS)
    as Hroom by (by vm_compute).
  split; [exact Hremoval|]. split; [exact Hfits|]. split; [exact Hreturned|].
  split; [exact Hid|]. split; [exact Hroom|].
  apply (removed_session_stays_removed st sys 0 schedule Hremoval Hfits Hreturned Hid Hroom).
  by vm_compute.
Defined.

(** C6 does not hold as it is stated.  With the allocator at its last value,
    the first call takes [2^64 - 1] and the second takes 0, which is not
    greater.  And on a server that starts at 0, the first call and the
    last of the [2^64] calls after it both take identifier 0: it is given to
    two sessions. *)
Lemma identifiers_wrap_around :
  ¬ identifiers_increase
      {| running_ := true; session_id_allocator_ := UINT64_MODULUS - 1; sessions_ := ∅ |}
      [true; true]
  ∧ ¬ NoDup (value_of (add_sessions (true :: replicate (Z.to_nat UINT64_MODULUS) true)
                         {| running_ := true; session_id_allocator_ := 0;
                            sessions_ := ∅ |})).
Proof.
  split.
  - intros [Hsorted _]. vm_compute in Hsorted.
    inversion Hsorted as [|x l _ Hall]. inversion Hall as [|y l' Hlt]. done.
  - rewrite (proj1 (add_sessions_cons _ _ _)). intros [Hfresh _]%NoDup_cons.
    apply Hfresh.
    apply (allocator_comes_round true
             {| running_ := true; session_id_allocator_ := 0; sessions_ := ∅ |}).
    + apply Z2Nat.id. by unfold UINT64_MODULUS.
    + reflexivity.
Qed.

Lemma identifiers_increase_until_wrap_witness :
  let s := {| running_ := true; session_id_allocator_ := 5; sessions_ := ∅ |} in
  uint64 (session_id_allocator_ s)
  ∧ session_id_allocator_ s + Z.of_nat (length [true; false; true]) ≤ UINT64_MODULUS
  ∧ identifiers_increase s [true; false; true].
Proof.
  intros s.
  assert (uint64 (session_id_allocator_ s)) as Hs by (split; by vm_compute).
  assert (session_id_allocator_ s + Z.of_nat (length [true; false; true]) ≤ UINT64_MODULUS)
    as Hroom by (by vm_compute).
  split; [exact Hs|]. split; [exact Hroom|].
  exact (identifiers_increase_until_wrap s [true; false; true] Hs Hroom).
Defined.

(** C7 does not hold as it is stated: the flag is tested before the sleep
    and not after it.  [stop] runs while the broadcaster sleeps; the
    broadcaster wakes up and calls [reply] on session 0 with the flag
    cleared. *)
Lemma sweep_after_flag_cleared :
  ¬ sweeps_while_running (λ s, state_after (stop s))
      {| running_ := true; session_id_allocator_ := 1;
         sessions_ := {[ 0 := {| session_id_ := 0; status_ := CONNECTED |} ]} |}.
Proof.
  intros Hsweeps. specialize (Hsweeps 0). vm_compute in Hsweeps.
  discriminate Hsweeps. constructor.
Qed.

(** C9 does not hold as it is stated: on a server that has registered
    nothing, the failed call takes identifier 0, and the last of the [2^64]
    calls that follow takes identifier 0 again. *)
Lemma failed_addSession_identifier_reused :
  ¬ skipped_for_good
      {| running_ := true; session_id_allocator_ := 0; sessions_ := ∅ |}
      (replicate (Z.to_nat UINT64_MODULUS) true).
Proof.
  unfold skipped_for_good. intros (_ & _ & _ & _ & Hfresh & _). apply Hfresh.
  apply (allocator_comes_round false
           {| running_ := true; session_id_allocator_ := 0; sessions_ := ∅ |}).
  - apply Z2Nat.id. by unfold UINT64_MODULUS.
  - reflexivity.
Qed.

Lemma failed_addSession_skips_witness :
  let s := {| running_ := true; session_id_allocator_ := 7;
              sessions_ := {[ 3 := make_session 3 ]} |} in
  uint64 (session_id_allocator_ s)
  ∧ Z.of_nat (length [true; true]) < UINT64_MODULUS
  ∧ skipped_for_good s [true; true].
Proof.
  intros s.
  assert (uint64 (session_id_allocator_ s)) as Hs by (split; by vm_compute).
  assert (Z.of_nat (length [true; true]) < UINT64_MODULUS) as Hcalls by (by vm_compute).
  split; [exact Hs|]. split; [exact Hcalls|].
  exact (failed_addSession_skips s [true; true] Hs Hcalls).
Defined.

(** * Further properties of the code *)

(** ** The registry: insert, erase, find *)

(** X1.  After a successful [addSession], [getSession] finds the session
    that [addSession] returned under the identifier it took, and finds under
    every other identifier what it found before. *)
Theorem getSession_after_addSession s sessionId :
  value_of (getSession sessionId (state_after (addSession true s)))
  = if decide (sessionId = session_id_allocator_ s)
    then value_of (addSession true s)
    else value_of (getSession sessionId s).
Proof.
  rewrite !getSession_run, addSession_run. unfold value_of, state_after.
  cbn [fst snd sessions_]. case_decide as Hid.
  - subst sessionId. apply lookup_insert_eq.
  - by apply lookup_insert_ne.
Qed.

(** X2.  After [removeSession], [getSession] finds nothing under the removed
    identifier and under every other identifier what it found before. *)
Theorem getSession_after_removeSession s removed sessionId :
  value_of (getSession sessionId (state_after (removeSession removed s)))
  = if decide (sessionId = removed) then None else value_of (getSession sessionId s).
Proof.
  rewrite !getSession_run, removeSession_run. unfold value_of, state_after.
  cbn [fst snd sessions_ update_sessions]. case_decide as Hid.
  - subst sessionId. apply lookup_delete_eq.
  - by apply lookup_delete_ne.
Qed.

(** X3.  [sessions_[new_session_id] = new_session] replaces: when the
    identifier that [addSession] takes is already registered, the session
    registered before is dropped from the registry and the registry keeps its
    size. *)
Theorem addSession_replaces s old :
  sessions_ s !! session_id_allocator_ s = Some old →
  sessions_ (state_after (addSession true s)) !! session_id_allocator_ s
  = Some (make_session (session_id_allocator_ s))
  ∧ size (sessions_ (state_after (addSession true s))) = size (sessions_ s).
Proof.
  intros Hold. rewrite addSession_run. unfold state_after. cbn [fst snd sessions_].
  split; [apply lookup_insert_eq|].
  rewrite <- (insert_delete_id (sessions_ s) _ _ Hold) at 2.
  rewrite <- insert_delete_eq.
  by rewrite !map_size_insert_None by apply lookup_delete_eq.
Qed.

Lemma addSession_replaces_witness :
  let s := {| running_ := true; session_id_allocator_ := 4;
              sessions_ := {[ 4 := {| session_id_ := 4; status_ := CONNECTED |} ]} |} in
  sessions_ s !! session_id_allocator_ s = Some {| session_id_ := 4; status_ := CONNECTED |}
  ∧ sessions_ (state_after (addSession true s)) !! session_id_allocator_ s
    = Some (make_session 4)
  ∧ size (sessions_ (state_after (addSession true s))) = size (sessions_ s).
Proof.
  intros s.
  assert (sessions_ s !! session_id_allocator_ s
          = Some {| session_id_ := 4; status_ := CONNECTED |}) as Hold by reflexivity.
  split; [exact Hold|]. exact (addSession_replaces s _ Hold).
Defined.

(** X4.  Removing the session that a successful [addSession] has just
    registered under a free identifier gives the registry back as it was;
    the allocator has moved on all the same. *)
Theorem removeSession_undoes_addSession s :
  sessions_ s !! session_id_allocator_ s = None →
  sessions_ (state_after (removeSession (session_id_allocator_ s)
                            (state_after (addSession true s))))
  = sessions_ s
  ∧ session_id_allocator_ (state_after (removeSession (session_id_allocator_ s)
                                          (state_after (addSession true s))))
    = wrap64 (session_id_allocator_ s + 1).
Proof.
  intros Hfree. rewrite removeSession_run, addSession_run. unfold state_after.
  cbn [fst snd sessions_ session_id_allocator_ update_sessions].
  split; [|done]. rewrite delete_insert_eq. by apply delete_id.
Qed.

Lemma removeSession_undoes_addSession_witness :
  let s := {| running_ := true; session_id_allocator_ := 1;
              sessions_ := {[ 0 := make_session 0 ]} |} in
  sessions_ s !! session_id_allocator_ s = None
  ∧ sessions_ (state_after (removeSession (session_id_allocator_ s)
                              (state_after (addSession true s))))
    = sessions_ s.
Proof.
  intros s.
  assert (sessions_ s !! session_id_allocator_ s = None) as Hfree by reflexivity.
  split; [exact Hfree|]. exact (proj1 (removeSession_undoes_addSession s Hfree)).
Defined.

(** ** [stop] *)

(** X5.  A second [stop] does nothing: whatever the server was, after [stop]
    another [stop] returns at once, without a call on a session or on the
    transport. *)
Theorem stop_twice s :
  stop (state_after (stop s)) = (tt, state_after (stop s), []).
Proof.
  rewrite (stop_run s). destruct (running_ s) eqn:Hrun.
  - by rewrite stop_run.
  - unfold state_after. cbn [fst snd]. by rewrite stop_run, Hrun.
Qed.

(** X6.  [stop] removes nothing: it leaves the registry and the allocator as
    they were, and [running_] is cleared afterwards. *)
Theorem stop_keeps_registry s :
  sessions_ (state_after (stop s)) = sessions_ s
  ∧ session_id_allocator_ (state_after (stop s)) = session_id_allocator_ s
  ∧ running_ (state_after (stop s)) = false.
Proof. rewrite stop_run. by destruct (running_ s) eqn:Hrun. Qed.

(** ** What the loops decode *)

Lemma decode_kind_fits tag : fits_kind (decode tag).2.
Proof.
  unfold decode, fits_kind. cbn [snd].
  change GRPC_EVENT_MASK with (Z.ones 2). rewrite Z.land_ones by done.
  change (2 ^ 2) with 4. change (Z.ones 2) with 3.
  pose proof (Z.mod_pos_bound tag 4). lia.
Qed.

(** X7.  What the loops decode from a 64-bit tag: the kind is one of the four
    values of the mask, the identifier fits in the 62 bits above them, and
    the two determine the tag ([tag = 4 * identifier + kind]), so that two
    tags that decode alike are the same tag. *)
Theorem decode_bounds tag :
  uint64 tag →
  fits_tag (decode tag).1 ∧ fits_kind (decode tag).2
  ∧ tag = (decode tag).1 * 4 + (decode tag).2
  ∧ ∀ tag', uint64 tag' → decode tag' = decode tag → tag' = tag.
Proof.
  assert (∀ t, t = (decode t).1 * 4 + (decode t).2) as Hsplit.
  { intros t. unfold decode. cbn [fst snd].
    rewrite Z.shiftr_div_pow2 by done. change (2 ^ GRPC_EVENT_BIT_LENGTH) with 4.
    change GRPC_EVENT_MASK with (Z.ones 2). rewrite Z.land_ones by done.
    change (2 ^ 2) with 4. pose proof (Z.div_mod t 4). lia. }
  intros [Hlo Hhi]. unfold UINT64_MODULUS in Hhi.
  change (2 ^ 64) with 18446744073709551616 in Hhi.
  split; [|split; [apply decode_kind_fits|split; [apply Hsplit|]]].
  - unfold fits_tag, decode. cbn [fst].
    rewrite Z.shiftr_div_pow2 by done.
    change (2 ^ GRPC_EVENT_BIT_LENGTH) with 4.
    change (2 ^ (64 - GRPC_EVENT_BIT_LENGTH)) with 4611686018427387904.
    split; [apply Z.div_pos; lia|]. apply Z.div_lt_upper_bound; lia.
  - intros tag' _ Heq. rewrite (Hsplit tag'), (Hsplit tag). by rewrite Heq.
Qed.

Lemma decode_bounds_witness :
  uint64 23 ∧ decode 23 = (5, GRPC_EVENT_FINISHED) ∧ fits_tag (decode 23).1.
Proof.
  assert (uint64 23) as Htag by (split; by vm_compute).
  split; [exact Htag|]. split; [reflexivity|].
  exact (proj1 (decode_bounds 23 Htag)).
Defined.

(** X8.  The log line at the head of an iteration prints a name for every
    tag: the kind that a loop decodes is always one of the four enumerators,
    so the stream-print operator never falls off the end of its switch
    there. *)
Theorem print_decoded_event os tag :
  ∃ k, (decode tag).2 = enumerator k
       ∧ print_event os (decode tag).2 = Some (os +:+ event_name k).
Proof.
  destruct (fits_kind_cases _ (decode_kind_fits tag)) as [Hk | [Hk | [Hk | Hk]]];
    rewrite Hk.
  - by exists CONNECTED_KIND.
  - by exists READ_DONE_KIND.
  - by exists WRITE_DONE_KIND.
  - by exists FINISHED_KIND.
Qed.

(** ** A dispatch loop on its own *)

Lemma disciplined_app held t1 t2 held1 :
  disciplined held t1 = Some held1 →
  disciplined held (t1 ++ t2) = disciplined held1 t2.
Proof.
  revert held. induction t1 as [|a t1 IH]; intros held Ht1; cbn in *.
  - by simplify_eq.
  - destruct (discipline held a); [by apply IH|done].
Qed.

Lemma processed_kind_decoded tag :
  (decode tag).2 ≠ GRPC_EVENT_FINISHED → processed_kind (decode tag).2.
Proof.
  intros Hfin. unfold processed_kind.
  destruct (fits_kind_cases _ (decode_kind_fits tag)) as [Hk | [Hk | [Hk | Hk]]];
    rewrite Hk; auto.
  by rewrite Hk in Hfin.
Qed.

Lemma calls_nil t : Forall (λ a, is_lock_op a = true) t → calls t = [].
Proof.
  unfold calls. induction 1 as [|a t Ha _ IH]; [done|].
  by rewrite filter_cons_False by congruence.
Qed.

(** With nothing registered an iteration finds no session: it calls
    [process] on none, so nothing a session would do is done, and the
    registry stays empty. *)
Lemma loop_body_with_empty inside tag ok s :
  sessions_ s = ∅ →
  sessions_ (state_after (loop_body_with inside tag ok s)) = ∅
  ∧ Forall (λ a, is_lock_op a = true) (trace_of (loop_body_with inside tag ok s)).
Proof.
  intros Hempty. unfold loop_body_with. rewrite bind_run, lookup_event_run.
  case_decide.
  - unfold state_after, trace_of. cbn. rewrite Hempty.
    split; [apply delete_empty|by repeat constructor].
  - rewrite Hempty, lookup_empty. unfold state_after, trace_of. cbn.
    split; [done|by repeat constructor].
Qed.

Lemma completion_queue_loop_cons e events s :
  state_after (completion_queue_loop (e :: events) s)
  = state_after (completion_queue_loop events
                   (state_after (loop_body_with e.2 e.1.1 e.1.2 s)))
  ∧ trace_of (completion_queue_loop (e :: events) s)
    = trace_of (loop_body_with e.2 e.1.1 e.1.2 s)
      ++ trace_of (completion_queue_loop events
                     (state_after (loop_body_with e.2 e.1.1 e.1.2 s))).
Proof.
  unfold completion_queue_loop. cbn [for_each]. rewrite bind_run.
  destruct (loop_body_with e.2 e.1.1 e.1.2 s) as [[[] s1] t1].
  unfold state_after, trace_of. cbn [fst snd].
  by destruct (for_each events _ s1) as [[[] s2] t2].
Qed.

Lemma completion_queue_loop_empty events : ∀ s,
  sessions_ s = ∅ →
  sessions_ (state_after (completion_queue_loop events s)) = ∅
  ∧ Forall (λ a, is_lock_op a = true) (trace_of (completion_queue_loop events s)).
Proof.
  induction events as [|e events IH]; intros s Hempty.
  - split; [done|constructor].
  - destruct (completion_queue_loop_cons e events s) as [-> ->].
    destruct (loop_body_with_empty e.2 e.1.1 e.1.2 s Hempty) as [Hempty1 Hlocks1].
    destruct (IH _ Hempty1) as [Hempty2 Hlocks2].
    split; [done|]. apply Forall_app. by split.
Qed.

(** X11.  [run] does not look at what the first [addSession] returns.  When
    the initialisation of the first session fails on a server with an empty
    registry, the call loop goes on with nothing registered: whatever events
    it is given it makes no call on any session, and the registry is still
    empty when it ends. *)
Theorem call_thread_without_first_session events s :
  sessions_ s = ∅ →
  calls (trace_of (thread_completion_queue_call false events s)) = []
  ∧ sessions_ (state_after (thread_completion_queue_call false events s)) = ∅.
Proof.
  intros Hempty. unfold thread_completion_queue_call. rewrite bind_run, addSession_run.
  set (s1 := {| running_ := running_ s;
                session_id_allocator_ := wrap64 (session_id_allocator_ s + 1);
                sessions_ := sessions_ s |}).
  destruct (completion_queue_loop_empty events s1 Hempty) as [Hempty2 Hlocks].
  destruct (completion_queue_loop events s1) as [[[] s2] t2].
  unfold state_after, trace_of in *. cbn [fst snd app] in *.
  split; [by apply calls_nil|done].
Qed.

Lemma call_thread_without_first_session_witness :
  let s := {| running_ := true; session_id_allocator_ := 0; sessions_ := ∅ |} in
  let events := [(encode 0 GRPC_EVENT_CONNECTED, true, [CallAddSession true]);
                 (encode 0 GRPC_EVENT_FINISHED, false, [])] in
  sessions_ s = ∅
  ∧ calls (trace_of (thread_completion_queue_call false events s)) = [].
Proof.
  intros s events. assert (sessions_ s = ∅) as Hempty by reflexivity.
  split; [exact Hempty|].
  exact (proj1 (call_thread_without_first_session events s Hempty)).
Defined.

(** ** The locking discipline of the threads *)

Lemma disciplined_cancel_sweep l :
  disciplined [mutex_sessions_] (flat_map cancel_trace l) = Some [mutex_sessions_].
Proof.
  induction l as [|it l IH]; [done|].
  cbn [flat_map]. rewrite (disciplined_app _ _ _ [mutex_sessions_]); [done|].
  unfold cancel_trace. case_decide; cbn; by rewrite !decide_True by auto.
Qed.

Lemma disciplined_reply_sweep l :
  disciplined [mutex_sessions_] (flat_map reply_trace l) = Some [mutex_sessions_].
Proof.
  induction l as [|it l IH]; [done|].
  cbn [flat_map]. rewrite (disciplined_app _ _ _ [mutex_sessions_]); [done|].
  unfold reply_trace. cbn. by rewrite !decide_True by auto.
Qed.

Lemma disciplined_publish_sweep s :
  disciplined [] (trace_of (publish_sweep s)) = Some [].
Proof.
  rewrite publish_sweep_run. unfold trace_of. cbn [snd disciplined discipline].
  rewrite decide_True by done.
  rewrite (disciplined_app _ _ _ [mutex_sessions_]) by apply disciplined_reply_sweep.
  cbn. by rewrite decide_True.
Qed.

Lemma publish_iteration_run others s :
  publish_iteration others s
  = if running_ s then (true, others s, trace_of (publish_sweep (others s)))
    else (false, s, []).
Proof.
  unfold publish_iteration. rewrite bind_run. cbn [read].
  destruct (running_ s); [|done]. cbn [negb]. rewrite bind_run.
  cbn [sleep_for]. rewrite bind_run, publish_sweep_run.
  unfold trace_of. cbn [snd mret M_ret app]. by rewrite app_nil_r.
Qed.

(** X13.  [stop] keeps the locking discipline: it clears the flag with
    nothing held, takes the registry mutex first and the mutex of a session
    inside it, calls [TryCancel] holding both, releases them in the reverse
    order, and shuts the listener and the queues down with nothing held. *)
Theorem stop_discipline s :
  disciplined [] (trace_of (stop s)) = Some [].
Proof.
  rewrite stop_run. destruct (running_ s); [|done].
  unfold trace_of. cbn [snd disciplined discipline]. rewrite !decide_True by done.
  rewrite (disciplined_app _ _ _ [mutex_sessions_]) by apply disciplined_cancel_sweep.
  cbn. by rewrite !decide_True.
Qed.

(** X14.  The broadcaster keeps the locking discipline, for every number of
    turns and whatever the other threads do while it sleeps: the registry
    mutex first, the mutex of a session inside it, [reply] holding both, and
    nothing held between two sweeps or at the end. *)
Theorem broadcaster_discipline sleeps : ∀ s,
  disciplined [] (trace_of (thread_publish_greeting sleeps s)) = Some [].
Proof.
  induction sleeps as [|others sleeps IH]; intros s; [done|].
  cbn [thread_publish_greeting]. rewrite bind_run, publish_iteration_run.
  destruct (running_ s); [|done]. cbn [negb].
  specialize (IH (others s)).
  destruct (thread_publish_greeting sleeps (others s)) as [[[] s2] t2].
  unfold trace_of in *. cbn [snd] in *.
  by rewrite (disciplined_app _ _ _ [] (disciplined_publish_sweep (others s))).
Qed.

(** ** The broadcaster and [stop] *)

(** X15.  [running_] is tested before the sleep.  When the flag is set at
    the test and cleared while the broadcaster sleeps, the broadcaster still
    makes one sweep on waking up, over the registry as it then is, and only
    then leaves its loop. *)
Theorem broadcaster_sweeps_once_more others sleeps s :
  running_ s = true →
  running_ (others s) = false →
  thread_publish_greeting (others :: sleeps) s
  = (tt, others s, trace_of (publish_sweep (others s))).
Proof.
  intros Hrun Hstopped.
  cbn [thread_publish_greeting]. rewrite bind_run, publish_iteration_run, Hrun.
  cbn [negb]. rewrite (thread_publish_greeting_stopped sleeps (others s) Hstopped).
  by rewrite app_nil_r.
Qed.

Lemma broadcaster_sweeps_once_more_witness :
  let s := {| running_ := true; session_id_allocator_ := 1;
              sessions_ := {[ 0 := {| session_id_ := 0; status_ := CONNECTED |} ]} |} in
  let others := λ s, state_after (stop s) in
  running_ s = true
  ∧ running_ (others s) = false
  ∧ occurrences (Reply 0) (trace_of (thread_publish_greeting [others; others] s)) = 1%nat.
Proof.
  intros s others.
  assert (running_ s = true) as Hrun by reflexivity.
  assert (running_ (others s) = false) as Hstopped by reflexivity.
  split; [exact Hrun|]. split; [exact Hstopped|].
  rewrite (broadcaster_sweeps_once_more others [others] s Hrun Hstopped).
  reflexivity.
Defined.

(** ** The registry under all the threads *)

(** What a step can do to the registry and to the allocator: only
    [addSession] registers, under the identifier it takes or has taken, and
    only it moves the allocator. *)
Lemma exec_step_registry st sys :
  (∀ k v, sessions_ (server (exec_step st sys).1) !! k = Some v →
          sessions_ (server sys) !! k = Some v
          ∨ (k = session_id_allocator_ (server sys) ∧ additions [st] = 1)
          ∨ k ∈ pending sys)
  ∧ session_id_allocator_ (server (exec_step st sys).1)
    = (if decide (additions [st] = 1)
       then wrap64 (session_id_allocator_ (server sys) + 1)
       else session_id_allocator_ (server sys)).
Proof.
  destruct st as [q tag ok|q|init_ok| |new_session_id init_ok|removed| |];
    cbn [exec_step additions].
  - destruct (loop_of q sys) as [|i e ok' session] eqn:Hloop; [|by split; [left|]].
    rewrite lookup_event_run. case_decide.
    + cbn [fst snd]. rewrite server_set_loop. split; [|done].
      intros k v Hk. left. cbn in Hk. by apply lookup_delete_Some in Hk as [_ Hk].
    + destruct (sessions_ (server sys) !! (decode tag).1);
        cbn [fst snd]; rewrite server_set_loop; by split; [left|].
  - rewrite finish_event_run.
    destruct (loop_of q sys) as [|i e [] session];
      cbn [fst snd]; rewrite server_set_loop; try by split; [left|].
    split; [|done]. intros k v Hk. left. cbn in Hk.
    by apply lookup_delete_Some in Hk as [_ Hk].
  - rewrite addSession_run. destruct init_ok; cbn [fst snd set_server server].
    + split; [|done]. intros k v Hk. cbn in Hk.
      apply lookup_insert_Some in Hk as [[<- _]|[_ Hk]]; [by right; left|by left].
    + by split; [left|].
  - cbn. by split; [left|].
  - destruct (take_out new_session_id (pending sys)) as [others|] eqn:Htake;
      [|by split; [left|]].
    destruct (take_out_Some _ _ _ Htake) as [Hin _].
    rewrite addSession_rest_run. destruct init_ok; cbn [fst snd set_pending server].
    + split; [|done]. intros k v Hk. cbn in Hk.
      apply lookup_insert_Some in Hk as [[<- _]|[_ Hk]]; [by right; right|by left].
    + by split; [left|].
  - rewrite removeSession_run. cbn [fst snd set_server server]. split; [|done].
    intros k v Hk. left. cbn in Hk. by apply lookup_delete_Some in Hk as [_ Hk].
  - rewrite publish_sweep_run. cbn [fst snd set_server server]. by split; [left|].
  - rewrite stop_run. destruct (running_ (server sys));
      cbn [fst snd set_server server]; by split; [left|].
Qed.

Lemma exec_registry first_id schedule : ∀ sys,
  first_id ≤ session_id_allocator_ (server sys) →
  0 ≤ first_id →
  session_id_allocator_ (server sys) + additions schedule < UINT64_MODULUS →
  (∀ k, is_Some (sessions_ (server sys) !! k) →
        first_id ≤ k < session_id_allocator_ (server sys)) →
  (∀ k, k ∈ pending sys → first_id ≤ k < session_id_allocator_ (server sys)) →
  session_id_allocator_ (server (exec schedule sys).1)
  = session_id_allocator_ (server sys) + additions schedule
  ∧ ∀ k, is_Some (sessions_ (server (exec schedule sys).1) !! k) →
         first_id ≤ k < session_id_allocator_ (server (exec schedule sys).1).
Proof.
  induction schedule as [|st rest IH]; intros sys Hfirst Hpos Hroom Hkeys Htaken.
  - cbn [exec additions fst]. split; [lia|done].
  - rewrite additions_cons in Hroom |- *.
    pose proof (additions_nonneg rest) as Hrest.
    destruct (exec_step_registry st sys) as [Hreg Halloc].
    assert (additions [st] = 0 ∨ additions [st] = 1) as Hst by (destruct st; cbn; lia).
    assert (session_id_allocator_ (server (exec_step st sys).1)
            = session_id_allocator_ (server sys) + additions [st]) as Halloc'.
    { rewrite Halloc. destruct Hst as [Hst|Hst]; rewrite Hst.
      - rewrite decide_False by done. lia.
      - rewrite decide_True by done. apply wrap64_small. unfold uint64. lia. }
    rewrite exec_cons. cbn [fst].
    destruct (IH (exec_step st sys).1) as [Halloc2 Hkeys2]; [lia..| | |].
    + intros k [v Hk]. destruct (Hreg k v Hk) as [Hold|[[-> Hadd]|Hin]].
      * assert (is_Some (sessions_ (server sys) !! k)) as Hsome by eauto.
        specialize (Hkeys k Hsome). lia.
      * lia.
      * specialize (Htaken k Hin). lia.
    + intros k [Hin|[-> ->]]%exec_step_pending.
      * specialize (Htaken k Hin). lia.
      * cbn [additions] in Halloc'. lia.
    + split; [lia|done].
Qed.

(** X16.  On a server that [run] has started with the allocator at
    [first_id], and for as long as the allocator does not wrap around: the
    allocator has advanced by one for each call of [addSession], and
    whatever the threads have done, every identifier in the registry is one
    that [addSession] has handed out (it lies between [first_id] and the
    allocator). *)
Theorem registered_identifiers_allocated first_id schedule :
  0 ≤ first_id →
  first_id + additions schedule < UINT64_MODULUS →
  session_id_allocator_ (server (exec schedule (started first_id)).1)
  = first_id + additions schedule
  ∧ ∀ k, is_Some (sessions_ (server (exec schedule (started first_id)).1) !! k) →
         first_id ≤ k < first_id + additions schedule.
Proof.
  intros Hpos Hroom.
  destruct (exec_registry first_id schedule (started first_id)) as [Halloc Hkeys];
    cbn [started server session_id_allocator_ sessions_ pending]; try done; try lia.
  - intros k [v Hk]. by rewrite lookup_empty in Hk.
  - intros k Hk. by apply not_elem_of_nil in Hk.
  - cbn [started server session_id_allocator_] in Halloc. split; [done|].
    intros k Hk. specialize (Hkeys k Hk). lia.
Qed.

Lemma registered_identifiers_allocated_witness :
  let schedule := [AddSession true; AddSession false; AddSession true;
                   Next NOTIFICATION (encode 3 GRPC_EVENT_CONNECTED) true;
                   Finish NOTIFICATION; RemoveSession 3; Sweep; Stop] in
  0 ≤ 3
  ∧ 3 + additions schedule < UINT64_MODULUS
  ∧ session_id_allocator_ (server (exec schedule (started 3)).1) = 6.
Proof.
  intros schedule.
  assert (0 ≤ 3) as Hpos by done.
  assert (3 + additions schedule < UINT64_MODULUS) as Hroom by (by vm_compute).
  split; [exact Hpos|]. split; [exact Hroom|].
  exact (proj1 (registered_identifiers_allocated 3 schedule Hpos Hroom)).
Defined.

(** ** What the threads call [process] on *)

(** [process] is only called at the end of an iteration that is past its
    lookup with [ok] set, on the session and with the kind it holds. *)
Lemma exec_step_processes st sys :
  Forall (λ a, ∀ i e, a = Process i e →
                      ∃ q session, loop_of q sys = Looked i e true session)
    (exec_step st sys).2.
Proof.
  assert (∀ t, Forall (λ a, is_process_on 0 a = false ∧ ∀ i e, a ≠ Process i e) t →
               Forall (λ a, ∀ i e, a = Process i e →
                                   ∃ q session, loop_of q sys = Looked i e true session) t)
    as Hnone.
  { intros t Ht. eapply Forall_impl; [exact Ht|]. intros a [_ Ha] i e He.
    by destruct (Ha i e). }
  assert (∀ out l, (∀ it : Z * GreetingSession,
                      Forall (λ a, is_process_on 0 a = false ∧ ∀ i e, a ≠ Process i e) (out it)) →
            Forall (λ a, is_process_on 0 a = false ∧ ∀ i e, a ≠ Process i e)
              (flat_map out l)) as Hsweep.
  { intros out l Hout. induction l as [|it l IH]; [constructor|].
    cbn [flat_map]. apply Forall_app. by split. }
  destruct st as [q tag ok|q|init_ok| |new_session_id init_ok|removed| |];
    cbn [exec_step].
  - destruct (loop_of q sys); [|constructor].
    rewrite lookup_event_run. case_decide; [|destruct (sessions_ _ !! _)];
      cbn [snd]; apply Hnone; by repeat constructor.
  - rewrite finish_event_run.
    destruct (loop_of q sys) as [|i e [] session] eqn:Hloop; cbn [snd];
      [constructor| |apply Hnone; by repeat constructor].
    apply List.Forall_cons; [by intros i' e' He'|].
    apply List.Forall_cons; [intros i' e' [= <- <-]; by exists q, session|].
    apply List.Forall_cons; [by intros i' e' He'|]. apply List.Forall_nil.
  - rewrite addSession_run. destruct init_ok; cbn [snd]; apply Hnone; by repeat constructor.
  - cbn. constructor.
  - destruct (take_out new_session_id (pending sys)); [|constructor].
    rewrite addSession_rest_run.
    destruct init_ok; cbn [snd]; apply Hnone; by repeat constructor.
  - rewrite removeSession_run. cbn [snd]. apply Hnone. by repeat constructor.
  - rewrite publish_sweep_run. cbn [snd]. apply Hnone.
    constructor; [done|]. apply Forall_app. split; [|by repeat constructor].
    apply Hsweep. intros it. by repeat constructor.
  - rewrite stop_run. destruct (running_ _); cbn [snd]; [|constructor]. apply Hnone.
    do 2 (constructor; [done|]). apply Forall_app. split; [|by repeat constructor].
    apply Hsweep. intros it. unfold cancel_trace. case_decide; by repeat constructor.
Qed.

(** After a step an iteration holds what it held before the step, or what it
    has just looked up: a session that was registered, with a kind that is
    not [FINISHED]. *)
Lemma exec_step_loops st sys q :
  match loop_of q (exec_step st sys).1 with
  | AtNext => True
  | Looked i e ok session =>
      loop_of q sys = Looked i e ok session
      ∨ (is_Some (sessions_ (server sys) !! i) ∧ processed_kind e)
  end.
Proof.
  assert (∀ s', match loop_of q (set_server s' sys) with
                | AtNext => True
                | Looked i e ok session =>
                    loop_of q sys = Looked i e ok session
                    ∨ (is_Some (sessions_ (server sys) !! i) ∧ processed_kind e)
                end) as Hserver.
  { intros s'. destruct q; cbn [loop_of set_server call_loop notification_loop];
      match goal with |- match ?it with _ => _ end => destruct it; auto end. }
  assert (∀ l s', match loop_of q (set_pending l s' sys) with
                  | AtNext => True
                  | Looked i e ok session =>
                      loop_of q sys = Looked i e ok session
                      ∨ (is_Some (sessions_ (server sys) !! i) ∧ processed_kind e)
                  end) as Hpending.
  { intros l s'. destruct q; cbn [loop_of set_pending call_loop notification_loop];
      match goal with |- match ?it with _ => _ end => destruct it; auto end. }
  assert (∀ q0 it s',
            match it with
            | AtNext => True
            | Looked i e _ _ => is_Some (sessions_ (server sys) !! i) ∧ processed_kind e
            end →
            match loop_of q (set_loop q0 it s' sys) with
            | AtNext => True
            | Looked i e ok session =>
                loop_of q sys = Looked i e ok session
                ∨ (is_Some (sessions_ (server sys) !! i) ∧ processed_kind e)
            end) as Hset.
  { intros q0 it s' Hit.
    destruct q0, q; cbn [loop_of set_loop call_loop notification_loop];
      match goal with |- match ?it with _ => _ end => destruct it; auto end. }
  destruct st as [q0 tag ok|q0|init_ok| |new_session_id init_ok|removed| |];
    cbn [exec_step].
  - destruct (loop_of q0 sys) as [|i0 e0 ok0 session0] eqn:Hloop.
    2:{ cbn [fst]. destruct (loop_of q sys); auto. }
    rewrite lookup_event_run. case_decide as Hfin; [by apply Hset|].
    destruct (sessions_ (server sys) !! (decode tag).1) as [session|] eqn:Hfound;
      cbn [fst]; apply Hset; [|done].
    split; [by rewrite Hfound|by apply processed_kind_decoded].
  - destruct (finish_event (loop_of q0 sys) (server sys)) as [[r s'] t']. by apply Hset.
  - destruct (addSession init_ok (server sys)) as [[r s'] t']. apply Hserver.
  - destruct (post_increment_allocator (server sys)) as [[r s'] t']. apply Hpending.
  - destruct (take_out new_session_id (pending sys)) as [others|].
    2:{ cbn [fst]. destruct (loop_of q sys); auto. }
    destruct (addSession_rest new_session_id init_ok (server sys)) as [[r s'] t'].
    apply Hpending.
  - destruct (removeSession removed (server sys)) as [[r s'] t']. apply Hserver.
  - destruct (publish_sweep (server sys)) as [[r s'] t']. apply Hserver.
  - destruct (stop (server sys)) as [[r s'] t']. apply Hserver.
Qed.

Lemma exec_processes first_id schedule : ∀ sys,
  first_id ≤ session_id_allocator_ (server sys) →
  0 ≤ first_id →
  session_id_allocator_ (server sys) + additions schedule < UINT64_MODULUS →
  (∀ k, is_Some (sessions_ (server sys) !! k) →
        first_id ≤ k < session_id_allocator_ (server sys)) →
  (∀ k, k ∈ pending sys → first_id ≤ k < session_id_allocator_ (server sys)) →
  (∀ q, held_allocated first_id sys (loop_of q sys)) →
  Forall (λ a, ∀ i e, a = Process i e →
                      first_id ≤ i < session_id_allocator_ (server sys) + additions schedule
                      ∧ processed_kind e)
    (exec schedule sys).2.
Proof.
  induction schedule as [|st rest IH]; intros sys Hfirst Hpos Hroom Hkeys Htaken Hheld;
    [constructor|].
  rewrite additions_cons in Hroom |- *.
  pose proof (additions_nonneg rest) as Hrest.
  destruct (exec_step_registry st sys) as [Hreg Halloc].
  assert (additions [st] = 0 ∨ additions [st] = 1) as Hst by (destruct st; cbn; lia).
  assert (session_id_allocator_ (server (exec_step st sys).1)
          = session_id_allocator_ (server sys) + additions [st]) as Halloc'.
  { rewrite Halloc. destruct Hst as [Hst|Hst]; rewrite Hst.
    - rewrite decide_False by done. lia.
    - rewrite decide_True by done. apply wrap64_small. unfold uint64. lia. }
  rewrite exec_cons. cbn [snd]. apply Forall_app. split.
  - eapply Forall_impl; [apply exec_step_processes|].
    intros a Ha i e He. destruct (Ha i e He) as (q & session & Hloop).
    specialize (Hheld q). rewrite Hloop in Hheld. destruct Hheld as [Hi Hkind].
    split; [lia|done].
  - eapply Forall_impl.
    + apply (IH (exec_step st sys).1); [lia|done|lia| | |].
      * intros k [v Hk]. destruct (Hreg k v Hk) as [Hold|[[-> Hadd]|Hin]]; [|lia|].
        -- assert (is_Some (sessions_ (server sys) !! k)) as Hsome by eauto.
           specialize (Hkeys k Hsome). lia.
        -- specialize (Htaken k Hin). lia.
      * intros k [Hin|[-> ->]]%exec_step_pending.
        -- specialize (Htaken k Hin). lia.
        -- cbn [additions] in Halloc'. lia.
      * intros q. pose proof (exec_step_loops st sys q) as Hq.
        unfold held_allocated. destruct (loop_of q (exec_step st sys).1) as [|i e ok session];
          [done|].
        rewrite Halloc'. destruct Hq as [Hsame|[Hregd Hkind]].
        -- specialize (Hheld q). rewrite Hsame in Hheld. destruct Hheld as [Hi Hkind].
           split; [lia|done].
        -- specialize (Hkeys i Hregd). split; [lia|done].
    + intros a Ha i e He. rewrite Halloc' in Ha. destruct (Ha i e He). split; [lia|done].
Qed.

(** X18.  However the threads interleave on a server that [run] has started
    with the allocator at [first_id], and for as long as the allocator does
    not wrap around, [process] is only ever called on an identifier that
    [addSession] has handed out and with one of the kinds [CONNECTED],
    [READ_DONE] and [WRITE_DONE]. *)
Theorem exec_processes_allocated first_id schedule :
  0 ≤ first_id →
  first_id + additions schedule < UINT64_MODULUS →
  Forall (λ a, ∀ i e, a = Process i e →
                      first_id ≤ i < first_id + additions schedule ∧ processed_kind e)
    (exec schedule (started first_id)).2.
Proof.
  intros Hpos Hroom.
  apply (exec_processes first_id schedule (started first_id));
    cbn [started server session_id_allocator_ sessions_ loop_of pending]; try done.
  - intros k [v Hk]. by rewrite lookup_empty in Hk.
  - intros k Hk. by apply not_elem_of_nil in Hk.
  - by intros [].
Qed.

Lemma exec_processes_allocated_witness :
  let schedule := [AddSession true;
                   Next NOTIFICATION (encode 0 GRPC_EVENT_CONNECTED) true;
                   Next CALL (encode 0 GRPC_EVENT_FINISHED) true;
                   Finish NOTIFICATION] in
  0 ≤ 0
  ∧ 0 + additions schedule < UINT64_MODULUS
  ∧ (exec schedule (started 0)).2
    = [Lock mutex_sessions_; Unlock mutex_sessions_;
       Lock mutex_sessions_; Unlock mutex_sessions_;
       Lock mutex_sessions_; Unlock mutex_sessions_;
       Lock (session_mutex 0); Process 0 GRPC_EVENT_CONNECTED; Unlock (session_mutex 0)]
  ∧ Forall (λ a, ∀ i e, a = Process i e →
                        0 ≤ i < 0 + additions schedule ∧ processed_kind e)
      (exec schedule (started 0)).2.
Proof.
  intros schedule.
  assert (0 ≤ 0) as Hpos by done.
  assert (0 + additions schedule < UINT64_MODULUS) as Hroom by (by vm_compute).
  split; [exact Hpos|]. split; [exact Hroom|]. split; [reflexivity|].
  exact (exec_processes_allocated 0 schedule Hpos Hroom).
Defined.

(** ** The names of the kinds *)

Lemma append_inj (os a b : string) : os +:+ a = os +:+ b → a = b.
Proof.
  induction os as [|c os IH]; cbn; [done|]. intros [= Heq]. by apply IH.
Qed.

(** X19.  The stream-print operator writes after what the stream already
    holds, and the four kinds have four different names: two kinds give the
    same output only if they are the same kind. *)
Theorem print_event_distinguishes os k1 k2 :
  print_event os (enumerator k1) = print_event os (enumerator k2) ↔ k1 = k2.
Proof.
  split; [|by intros ->].
  destruct k1, k2; try done; intros [= Heq%append_inj]; discriminate.
Qed.
